(** * The custom-operator dispatcher of [src/operator/custom/custom-inl.h]

    A shallow embedding of [mxnet::op::custom::CustomOperator]: the operator
    registry, the dispatch entry point [Push] with its naive and pooled
    paths, the worker loop [ThreadTarget], the pool growth of
    [SetNumThreads]/[CreateThreads] and the destructor.

    The object's fields are a record; the threads that run its member
    functions are interleaved by an executable step function:
    - a critical section of [mutex_] is one step, except that of a pooled
      [Push], which is two: [num_free_threads] is atomic and is loaded twice
      on lines 134-135, and a worker may increment it in between without the
      lock;
    - the statements a worker runs without the lock are steps of their own:
      the call [fn()] and the increment of the idle count;
    - [func] is opaque: it is a function on the state it can reach, and the
      body of a task runs in one step;
    - a worker blocked in [cv_.wait] may re-check the predicate at any time
      (spurious wake-ups are allowed), so [notify_all] only shows in the log;
    - reading past the end of a vector is undefined behaviour and has no
      successor state. *)

From stdpp Require Import gmap strings list fin_maps.
From Stdlib Require Import ZArith Lia Sorted.

Local Open Scope Z_scope.

(** ** Machine integers (LP64: [int] and [uint32_t] have 32 bits, [size_t] 64) *)

Definition to_int (z : Z) : Z := (z + 2 ^ 31) `mod` 2 ^ 32 - 2 ^ 31.
Definition to_uint32 (z : Z) : Z := z `mod` 2 ^ 32.
Definition to_size_t (z : Z) : Z := z `mod` 2 ^ 64.

(** ** Tensor handles, flags and storage *)

(** Modelled from the spec: the storage-kind enumeration of the tensor type
    ([NDArrayStorageType], declared in ndarray.h).  The dispatcher only tells
    the dense and the undefined kind from all others. *)
Inductive NDArrayStorageType :=
| kUndefinedStorage
| kDefaultStorage
| kRowSparseStorage
| kCSRStorage.

(** An [NDArray] is a handle: copying it (as the lambdas of [Push] do, by
    value) shares the chunk [ptr_] points to. *)
Record NDArray := mkNDArray {
  storage_type : NDArrayStorageType;
  var : Z;      (* Engine::VarHandle *)
  ptr_ : nat    (* the address of the chunk *)
}.

(** What the opaque computation [func] can read and write: the two flags of
    [Imperative] and the storage every chunk currently holds. *)
Record World := mkWorld {
  is_recording : bool;
  is_training : bool;
  shandle : gmap nat Z
}.

(** Modelled from the spec: [Imperative::set_is_recording] (imperative.h)
    swaps the flag in and hands back the value it had. *)
Definition set_is_recording (b : bool) (w : World) : bool * World :=
  (is_recording w,
   {| is_recording := b; is_training := is_training w; shandle := shandle w |}).

(** Modelled from the spec: [Imperative::set_is_training], as above. *)
Definition set_is_training (b : bool) (w : World) : bool * World :=
  (is_training w,
   {| is_recording := is_recording w; is_training := b; shandle := shandle w |}).

(** Modelled from the spec: [NDArray::SparseUpdateChunk] (ndarray.h) rebinds
    the receiver so that it shares the storage of its argument; the handle
    vectors are const, the change goes through the chunk pointer. *)
Definition SparseUpdateChunk (dst src : NDArray) (w : World) : World :=
  {| is_recording := is_recording w;
     is_training := is_training w;
     shandle := partial_alter (λ _, shandle w !! ptr_ src) (ptr_ dst) (shandle w) |}.

Record OpContext := mkOpContext {
  run_ctx : Z;            (* ctx.run_ctx.ctx: the device the work is for *)
  async_on_complete : Z   (* identity of the completion callback *)
}.

(** The arguments of one [Push] call; the queued lambda and the closure handed
    to [PushSync] capture them by value. *)
Record Task := mkTask {
  func : World -> World;
  ctx : OpContext;
  recording : bool;
  training : bool;
  arrs : list NDArray;
  tags : list Z;
  output_tags : gset Z;
  outputs : list NDArray
}.

Inductive FnProperty := kNormal.

(** One operation handed to the downstream engine by [Engine::PushSync]. *)
Record SyncOp := mkSyncOp {
  exec_fun : Task;          (* the captures of the patch closure *)
  exec_ctx : Z;
  const_vars : list Z;
  mutable_vars : list Z;
  prop : FnProperty;
  priority : Z;
  opr_name : string
}.

(** Observable actions, in the order they happen. *)
Inductive Event :=
| EvWarning (op_type : string)      (* LOG(WARNING) of Register *)
| EvFunc (t : Task)                 (* func() ran to completion *)
| EvRebind (out_idx i : nat)        (* outputs[out_idx].SparseUpdateChunk(arrs[i]) *)
| EvComplete (c : OpContext)        (* ctx.async_on_complete() *)
| EvPushSync (op : SyncOp)          (* Engine::Get()->PushSync(...) *)
| EvEnqueue (t : Task)              (* q_.push(...) *)
| EvNotifyAll                       (* cv_.notify_all() *)
| EvSpawn (i : nat)                 (* workers_.emplace_back(std::thread(...)) *)
| EvDequeue (i : nat) (t : Task)    (* worker i: q_.front(); q_.pop() *)
| EvDone (i : nat) (t : Task)       (* worker i: fn() returned *)
| EvExit (i : nat)                  (* worker i left ThreadTarget *)
| EvJoin (i : nat).                 (* workers_[i].join() returned *)

(** Everything outside the [CustomOperator] object. *)
Record Runtime := mkRuntime {
  world : World;
  engine : list SyncOp;   (* operations pending in the downstream engine *)
  log : list Event
}.

Definition emit (e : Event) (r : Runtime) : Runtime :=
  {| world := world r; engine := engine r; log := log r ++ [e] |}.

Definition on_world (f : World -> World) (r : Runtime) : Runtime :=
  {| world := f (world r); engine := engine r; log := log r |}.

Definition is_dense_or_undefined (st : NDArrayStorageType) : bool :=
  match st with
  | kDefaultStorage | kUndefinedStorage => true
  | _ => false
  end.

(** ** The sparse reconciliation pass *)

Section Patch.
Variables (arrs0 : list NDArray) (tags0 : list Z)
          (output_tags0 : gset Z) (outputs0 : list NDArray).

(** Lines 82-90, the loop of the naive path; [n] counts the iterations
    left, [i] and [out_idx] are the loop variables.  An index past the end
    of a vector is undefined behaviour: [None]. *)
Fixpoint naive_patch_from (n i out_idx : nat) (r : Runtime) : option Runtime :=
  match n with
  | O => Some r
  | S n' =>
      a ← arrs0 !! i;
      if is_dense_or_undefined (storage_type a)
      then naive_patch_from n' (S i) out_idx r
      else
        tag ← tags0 !! i;
        if bool_decide (tag ∈ output_tags0)
        then
          o ← outputs0 !! out_idx;
          naive_patch_from n' (S i) (S out_idx)
            (emit (EvRebind out_idx i) (on_world (SparseUpdateChunk o a) r))
        else naive_patch_from n' (S i) out_idx r
  end.

Definition naive_patch (r : Runtime) : option Runtime :=
  naive_patch_from (length arrs0) 0 0 r.

(** Lines 119-127, the loop inside the closure given to [PushSync]. *)
Fixpoint sync_patch_from (n i out_idx : nat) (r : Runtime) : option Runtime :=
  match n with
  | O => Some r
  | S n' =>
      a ← arrs0 !! i;
      if is_dense_or_undefined (storage_type a)
      then sync_patch_from n' (S i) out_idx r
      else
        tag ← tags0 !! i;
        if bool_decide (tag ∈ output_tags0)
        then
          o ← outputs0 !! out_idx;
          sync_patch_from n' (S i) (S out_idx)
            (emit (EvRebind out_idx i) (on_world (SparseUpdateChunk o a) r))
        else sync_patch_from n' (S i) out_idx r
  end.

Definition sync_patch (r : Runtime) : option Runtime :=
  sync_patch_from (length arrs0) 0 0 r.

(** Lines 104-115: the read and write variable lists of the pooled path.
    The loop ranges over the elements of [arrs]; [idx] indexes [tags]. *)
Fixpoint build_vars_from (rest : list NDArray) (idx : nat)
    (vars vars2 : list Z) : option (list Z * list Z) :=
  match rest with
  | [] => Some (vars, vars2)
  | a :: rest' =>
      let vars := vars ++ [var a] in
      tag ← tags0 !! idx;
      if bool_decide (tag ∈ output_tags0)
      then
        if is_dense_or_undefined (storage_type a)
        then build_vars_from rest' idx vars vars2
        else build_vars_from rest' (S idx) vars (vars2 ++ [var a])
      else build_vars_from rest' idx vars vars2
  end.

Definition build_vars : option (list Z * list Z) :=
  build_vars_from arrs0 0 [] [].
End Patch.

(** The entries the reconciliation pass is meant for, with their positions:
    storage neither dense nor undefined, tag among the output tags. *)
Definition qualifies (tags0 : list Z) (output_tags0 : gset Z)
    (i : nat) (a : NDArray) : bool :=
  negb (is_dense_or_undefined (storage_type a)) &&
  match tags0 !! i with
  | Some tag => bool_decide (tag ∈ output_tags0)
  | None => false
  end.

Fixpoint qualifying_from (tags0 : list Z) (output_tags0 : gset Z)
    (i : nat) (rest : list NDArray) : list (nat * NDArray) :=
  match rest with
  | [] => []
  | a :: rest' =>
      if qualifies tags0 output_tags0 i a
      then (i, a) :: qualifying_from tags0 output_tags0 (S i) rest'
      else qualifying_from tags0 output_tags0 (S i) rest'
  end.

Definition qualifying (t : Task) : list (nat * NDArray) :=
  qualifying_from (tags t) (output_tags t) 0 (arrs t).

(** Rebinding output [k], [k+1], ... to the given entries, one after the
    other. *)
Fixpoint rebind_all (outs : list NDArray) (srcs : list (nat * NDArray))
    (k : nat) (r : Runtime) : Runtime :=
  match outs, srcs with
  | o :: outs', (i, a) :: srcs' =>
      rebind_all outs' srcs' (S k)
        (emit (EvRebind k i) (on_world (SparseUpdateChunk o a) r))
  | _, _ => r
  end.

(** The calls [rebind_all] makes, as events. *)
Fixpoint rebind_events (k : nat) (srcs : list (nat * NDArray)) : list Event :=
  match srcs with
  | [] => []
  | (i, _) :: srcs' => EvRebind k i :: rebind_events (S k) srcs'
  end.

(** The write-variable list as the running append count decides it: the
    variable of an entry is appended when the tag at the number of variables
    appended so far is an output tag and the entry is neither dense nor
    undefined. *)
Fixpoint write_vars (tags0 : list Z) (output_tags0 : gset Z)
    (rest : list NDArray) (appended : list Z) : list Z :=
  match rest with
  | [] => appended
  | a :: rest' =>
      match tags0 !! length appended with
      | Some tag =>
          if bool_decide (tag ∈ output_tags0) &&
             negb (is_dense_or_undefined (storage_type a))
          then write_vars tags0 output_tags0 rest' (appended ++ [var a])
          else write_vars tags0 output_tags0 rest' appended
      | None => appended
      end
  end.

(** ** The object and its threads *)

(** Where a worker thread stands in [ThreadTarget] whenever it does not hold
    [mutex_]. *)
Inductive WorkerPc :=
| AtEntry               (* started, about to take the lock of line 161 *)
| AtWait                (* blocked inside cv_.wait, lock released *)
| Running (fn : Task)   (* popped fn and unlocked; fn() has not returned *)
| Finished              (* fn() returned; ++num_free_threads comes next *)
| AtRelock              (* about to lock.lock() of line 171 *)
| Exited.               (* ThreadTarget returned *)

(** Where the destructor stands. *)
Inductive DtorPc :=
| NotStarted
| Joining (k : nat)     (* about to join workers_[k] *)
| Destroyed.

Record State := mkState {
  mutex_ : bool;                 (* held by a Push that is about to grow the pool *)
  registry_ : gmap string Z;     (* CustomOpPropCreator is a function pointer *)
  workers_ : list WorkerPc;
  num_free_threads : Z;          (* std::atomic<uint32_t> *)
  q_ : list Task;
  naive_engine_ : bool;
  destructing_ : bool;
  dtor : DtorPc;
  rt : Runtime
}.

Definition nullptr : Z := 0.

Definition set_mutex (b : bool) (s : State) : State :=
  mkState b (registry_ s) (workers_ s) (num_free_threads s) (q_ s)
          (naive_engine_ s) (destructing_ s) (dtor s) (rt s).
Definition set_registry (m : gmap string Z) (s : State) : State :=
  mkState (mutex_ s) m (workers_ s) (num_free_threads s) (q_ s)
          (naive_engine_ s) (destructing_ s) (dtor s) (rt s).
Definition set_workers (ws : list WorkerPc) (s : State) : State :=
  mkState (mutex_ s) (registry_ s) ws (num_free_threads s) (q_ s)
          (naive_engine_ s) (destructing_ s) (dtor s) (rt s).
Definition set_num_free_threads (n : Z) (s : State) : State :=
  mkState (mutex_ s) (registry_ s) (workers_ s) n (q_ s)
          (naive_engine_ s) (destructing_ s) (dtor s) (rt s).
Definition set_q (q : list Task) (s : State) : State :=
  mkState (mutex_ s) (registry_ s) (workers_ s) (num_free_threads s) q
          (naive_engine_ s) (destructing_ s) (dtor s) (rt s).
Definition set_destructing (b : bool) (s : State) : State :=
  mkState (mutex_ s) (registry_ s) (workers_ s) (num_free_threads s) (q_ s)
          (naive_engine_ s) b (dtor s) (rt s).
Definition set_dtor (d : DtorPc) (s : State) : State :=
  mkState (mutex_ s) (registry_ s) (workers_ s) (num_free_threads s) (q_ s)
          (naive_engine_ s) (destructing_ s) d (rt s).
Definition set_rt (r : Runtime) (s : State) : State :=
  mkState (mutex_ s) (registry_ s) (workers_ s) (num_free_threads s) (q_ s)
          (naive_engine_ s) (destructing_ s) (dtor s) r.

Definition record (e : Event) (s : State) : State := set_rt (emit e (rt s)) s.
Definition set_pc (i : nat) (pc : WorkerPc) (s : State) : State :=
  set_workers (<[i := pc]> (workers_ s)) s.
Definition notify_all (s : State) : State := record EvNotifyAll s.

(** The environment settings the object reads through [dmlc::GetEnv]. *)
Record Env := mkEnv {
  MXNET_ENGINE_TYPE : option string;
  MXNET_CUSTOM_OP_NUM_THREADS : option Z
}.

Definition GetEnv {A} (setting : option A) (dflt : A) : A := default dflt setting.

(** *** Registry (lines 53-66) *)

Definition Register (op_type : string) (creator : Z) (s : State) : State :=
  let s :=
    match registry_ s !! op_type with
    | Some _ => record (EvWarning op_type) s
    | None => s
    end in
  set_registry (<[op_type := creator]> (registry_ s)) s.

Definition Find (op_type : string) (s : State) : Z :=
  match registry_ s !! op_type with
  | Some creator => creator
  | None => nullptr
  end.

(** *** The body of a queued task (lines 95-132) *)

(** Lines 96-102: the flags are swapped in, [func] runs, the flags are put
    back.  [flag_window_enter] is what happens before [func] is entered. *)
Definition flag_window_enter (t : Task) (w : World) : bool * bool * World :=
  let '(prev_recording, w) := set_is_recording (recording t) w in
  let '(prev_training, w) := set_is_training (training t) w in
  (prev_recording, prev_training, w).

Definition flag_window_leave (prev_recording prev_training : bool) (w : World) : World :=
  let '(_, w) := set_is_training prev_training w in
  let '(_, w) := set_is_recording prev_recording w in
  w.

Definition flag_window (t : Task) (w : World) : World :=
  let '(prev_recording, prev_training, w) := flag_window_enter t w in
  let w := func t w in
  flag_window_leave prev_recording prev_training w.

(** [Engine::PushSync]: the operation is left with the downstream engine. *)
Definition PushSync (op : SyncOp) (r : Runtime) : Runtime :=
  emit (EvPushSync op)
    {| world := world r; engine := engine r ++ [op]; log := log r |}.

Definition CustomOperator_name : string := "CustomOperator".

Definition task_body (t : Task) (r : Runtime) : option Runtime :=
  let r := emit (EvFunc t) (on_world (flag_window t) r) in
  '(vars, vars2) ← build_vars (arrs t) (tags t) (output_tags t);
  Some (PushSync (mkSyncOp t (run_ctx (ctx t)) vars vars2 kNormal 0
                           CustomOperator_name) r).

(** The closure of lines 118-129, run by the downstream engine. *)
Definition sync_closure (t : Task) (r : Runtime) : option Runtime :=
  r ← sync_patch (arrs t) (tags t) (output_tags t) (outputs t) r;
  Some (emit (EvComplete (ctx t)) r).

(** The naive branch of [Push] (lines 80-93). *)
Definition Push_naive (t : Task) (r : Runtime) : option Runtime :=
  let r := emit (EvFunc t) (on_world (func t) r) in
  r ← naive_patch (arrs t) (tags t) (output_tags t) (outputs t) r;
  Some (emit (EvComplete (ctx t)) r).

Section Engine.
Variable env : Env.

(** *** Construction (lines 153-159) *)
Definition CustomOperator_new (w0 : World) : State :=
  {| mutex_ := false;
     registry_ := ∅;
     workers_ := [];
     num_free_threads := 0;
     q_ := [];
     naive_engine_ :=
       if bool_decide ("NaiveEngine" ≠ GetEnv (MXNET_ENGINE_TYPE env) "")
       then false else true;
     destructing_ := false;
     dtor := NotStarted;
     rt := {| world := w0; engine := []; log := [] |} |}.

(** *** Pool growth (lines 175-184) *)

(** One iteration of the loop of [SetNumThreads], under the lock of the
    [Push] that grows the pool.  The new thread first needs that lock, so it
    cannot touch the count before the increment here. *)
Definition spawn (s : State) : State :=
  let s := record (EvSpawn (length (workers_ s))) s in
  let s := set_workers (workers_ s ++ [AtEntry]) s in
  set_num_free_threads (to_uint32 (num_free_threads s + 1)) s.

(** [for (int i = ...; i < num_threads; ++i)], [n] bounding the iterations. *)
Fixpoint spawn_loop (n : nat) (i num_threads : Z) (s : State) : State :=
  match n with
  | O => s
  | S n' =>
      if i <? num_threads
      then spawn_loop n' (to_int (i + 1)) num_threads (spawn s)
      else s
  end.

Definition SetNumThreads (num_threads : Z) (s : State) : State :=
  let num_threads :=
    Z.min (GetEnv (MXNET_CUSTOM_OP_NUM_THREADS env) 16) num_threads in
  let i := to_int (Z.of_nat (length (workers_ s))) in
  spawn_loop (Z.to_nat (num_threads - i)) i num_threads s.

Definition CreateThreads (num_new_threads : Z) (s : State) : State :=
  SetNumThreads
    (to_int (to_size_t (Z.of_nat (length (workers_ s)) + num_new_threads))) s.

(** *** Push (lines 75-137) *)

(** Up to and including the comparison of line 134.  In pooled mode the
    caller needs [mutex_]; when the comparison holds it keeps the lock and
    goes on with [Push_grow]. *)
Definition Push (t : Task) (s : State) : option State :=
  if naive_engine_ s then
    r ← Push_naive t (rt s);
    Some (set_rt r s)
  else if mutex_ s then None
  else
    let s := record (EvEnqueue t) (set_q (q_ s ++ [t]) s) in
    if Z.of_nat (length (q_ s)) >? num_free_threads s
    then Some (set_mutex true s)
    else Some (notify_all s).

(** Line 135 with the second load of [num_free_threads], then line 136 and
    the release of the lock. *)
Definition Push_grow (s : State) : option State :=
  if mutex_ s then
    let s :=
      CreateThreads
        (to_int (to_size_t (Z.of_nat (length (q_ s)) - num_free_threads s))) s in
    Some (set_mutex false (notify_all s))
  else None.

(** *** The worker loop (lines 160-174) *)

Inductive Loc :=
| OuterTest    (* while (!q_.empty() || !destructing_) *)
| WaitPred     (* the predicate of cv_.wait *)
| InnerTest.   (* while (!q_.empty()) *)

Definition q_empty (s : State) : bool :=
  match q_ s with [] => true | _ => false end.

(** What worker [i] does while it holds the lock, from program point [loc]
    until it unlocks, blocks or returns. *)
Fixpoint locked (fuel : nat) (loc : Loc) (i : nat) (s : State) : option State :=
  match fuel with
  | O => None
  | S fuel' =>
      match loc with
      | OuterTest =>
          if negb (q_empty s) || negb (destructing_ s)
          then locked fuel' WaitPred i s
          else Some (record (EvExit i) (set_pc i Exited s))
      | WaitPred =>
          if negb (q_empty s) || destructing_ s
          then locked fuel' InnerTest i s
          else Some (set_pc i AtWait s)
      | InnerTest =>
          match q_ s with
          | fn :: q' =>
              let s := set_num_free_threads (to_uint32 (num_free_threads s - 1)) s in
              let s := record (EvDequeue i fn) (set_q q' s) in
              Some (set_pc i (Running fn) s)
          | [] => locked fuel' OuterTest i s
          end
      end
  end.

Definition worker_step (i : nat) (s : State) : option State :=
  pc ← workers_ s !! i;
  match pc with
  | AtEntry => if mutex_ s then None else locked 4 OuterTest i s
  | AtWait => if mutex_ s then None else locked 4 WaitPred i s
  | Running fn =>
      r ← task_body fn (rt s);
      Some (record (EvDone i fn) (set_pc i Finished (set_rt r s)))
  | Finished =>
      Some (set_pc i AtRelock
              (set_num_free_threads (to_uint32 (num_free_threads s + 1)) s))
  | AtRelock => if mutex_ s then None else locked 4 InnerTest i s
  | Exited => None
  end.

(** *** The destructor (lines 139-148) *)
Definition destructor_step (s : State) : option State :=
  match dtor s with
  | NotStarted =>
      if naive_engine_ s then Some (set_dtor Destroyed s)
      else if mutex_ s then None
      else Some (set_dtor (Joining 0) (notify_all (set_destructing true s)))
  | Joining k =>
      match workers_ s !! k with
      | None => Some (set_dtor Destroyed s)
      | Some Exited => Some (set_dtor (Joining (S k)) (record (EvJoin k) s))
      | Some _ => None
      end
  | Destroyed => None
  end.

(** The downstream engine runs its [k]-th pending operation. *)
Definition engine_step (k : nat) (s : State) : option State :=
  op ← engine (rt s) !! k;
  let r := {| world := world (rt s); engine := delete k (engine (rt s));
              log := log (rt s) |} in
  r ← sync_closure (exec_fun op) r;
  Some (set_rt r s).

(** *** Interleavings *)
Inductive Action :=
| CallRegister (op_type : string) (creator : Z)
| CallFind (op_type : string)
| CallPush (t : Task)
| PushGrow
| WorkerStep (i : nat)
| EngineStep (k : nat)
| Destruct.

Definition step (a : Action) (s : State) : option State :=
  match a with
  | CallRegister op_type creator =>
      if mutex_ s then None else Some (Register op_type creator s)
  | CallFind op_type => if mutex_ s then None else Some s
  | CallPush t => Push t s
  | PushGrow => Push_grow s
  | WorkerStep i => worker_step i s
  | EngineStep k => engine_step k s
  | Destruct => destructor_step s
  end.

Fixpoint run (acts : list Action) (s : State) : option State :=
  match acts with
  | [] => Some s
  | a :: acts' => s' ← step a s; run acts' s'
  end.

Definition reachable (s : State) : Prop :=
  ∃ w0 acts, run acts (CustomOperator_new w0) = Some s.

(** Submitting work once the destructor has been entered is outside the
    contract; [orderly_step] refuses it. *)
Definition orderly_step (a : Action) (s : State) : option State :=
  match a, dtor s with
  | CallPush _, NotStarted => step a s
  | CallPush _, _ => None
  | _, _ => step a s
  end.

Fixpoint orderly_run (acts : list Action) (s : State) : option State :=
  match acts with
  | [] => Some s
  | a :: acts' => s' ← orderly_step a s; orderly_run acts' s'
  end.

Definition orderly (s : State) : Prop :=
  ∃ w0 acts, orderly_run acts (CustomOperator_new w0) = Some s.
End Engine.

(** ** Projections of the log *)

Definition enqueued (l : list Event) : list Task :=
  omap (λ e, match e with EvEnqueue t => Some t | _ => None end) l.
Definition dequeued (l : list Event) : list Task :=
  omap (λ e, match e with EvDequeue _ t => Some t | _ => None end) l.
Definition completed (l : list Event) : list Task :=
  omap (λ e, match e with EvDone _ t => Some t | _ => None end) l.
Definition dequeued_by (i : nat) (l : list Event) : list Task :=
  omap (λ e, match e with
             | EvDequeue j t => if bool_decide (j = i) then Some t else None
             | _ => None end) l.
Definition completed_by (i : nat) (l : list Event) : list Task :=
  omap (λ e, match e with
             | EvDone j t => if bool_decide (j = i) then Some t else None
             | _ => None end) l.
Definition joined (l : list Event) : list nat :=
  omap (λ e, match e with EvJoin i => Some i | _ => None end) l.
Definition warnings (l : list Event) : list string :=
  omap (λ e, match e with EvWarning n => Some n | _ => None end) l.
Definition completions (l : list Event) : list OpContext :=
  omap (λ e, match e with EvComplete c => Some c | _ => None end) l.
Definition spawned (l : list Event) : list nat :=
  omap (λ e, match e with EvSpawn i => Some i | _ => None end) l.

(** Workers counted by [num_free_threads]: all but those between the
    decrement of line 165 and the increment of line 170. *)
Definition is_idle (pc : WorkerPc) : bool :=
  match pc with
  | Running _ | Finished => false
  | _ => true
  end.

Fixpoint idle_count (ws : list WorkerPc) : Z :=
  match ws with
  | [] => 0
  | pc :: ws' => (if is_idle pc then 1 else 0) + idle_count ws'
  end.

(** Tasks taken from the queue whose body has not returned yet. *)
Definition running_task (pc : option WorkerPc) : list Task :=
  match pc with
  | Some (Running fn) => [fn]
  | _ => []
  end.

Fixpoint running_count (ws : list WorkerPc) : Z :=
  match ws with
  | [] => 0
  | pc :: ws' => Z.of_nat (length (running_task (Some pc))) + running_count ws'
  end.

(** The most recent [Register] of a name in a sequence of calls. *)
Fixpoint latest (name : string) (acts : list Action) : option Z :=
  match acts with
  | [] => None
  | a :: acts' =>
      match latest name acts' with
      | Some c => Some c
      | None =>
          match a with
          | CallRegister n c => if bool_decide (n = name) then Some c else None
          | _ => None
          end
      end
  end.

(** The names re-registered in a sequence of calls, one entry per
    overwrite; [seen] holds the names registered before. *)
Fixpoint overwrites (seen : gset string) (acts : list Action) : list string :=
  match acts with
  | [] => []
  | CallRegister n _ :: acts' =>
      if bool_decide (n ∈ seen)
      then n :: overwrites seen acts'
      else overwrites ({[n]} ∪ seen) acts'
  | _ :: acts' => overwrites seen acts'
  end.

Definition is_push (a : Action) : bool :=
  match a with CallPush _ => true | _ => false end.

Definition is_registry_call (a : Action) : bool :=
  match a with
  | CallRegister _ _ | CallFind _ => true
  | _ => false
  end.

(** ** The control view of a state

    The invariants of the queue and of the pool do not depend on what the
    task bodies compute.  [view] keeps the fields of the object, the position
    of the destructor and the events of the log that are not made by a task
    body or by the reconciliation pass. *)

Definition exec_event (e : Event) : bool :=
  match e with
  | EvFunc _ | EvRebind _ _ | EvComplete _ | EvPushSync _ => true
  | _ => false
  end.

Definition control (l : list Event) : list Event :=
  omap (λ e, if exec_event e then None else Some e) l.

Record View := mkView {
  v_mutex : bool;
  v_workers : list WorkerPc;
  v_free : Z;
  v_q : list Task;
  v_naive : bool;
  v_destructing : bool;
  v_dtor : DtorPc;
  v_log : list Event
}.

Definition view (s : State) : View :=
  mkView (mutex_ s) (workers_ s) (num_free_threads s) (q_ s) (naive_engine_ s)
         (destructing_ s) (dtor s) (control (log (rt s))).

(** The program points at which a worker takes [mutex_]. *)
Definition takes_lock (pc : WorkerPc) : bool :=
  match pc with
  | AtEntry | AtWait | AtRelock => true
  | _ => false
  end.

(** The steps of the object as they show in the view, for a pool capped at
    [cap].  With [ord] set, a task is only enqueued while the destructor has
    not been entered. *)
Inductive trans (cap : Z) (ord : bool) : View → View → Prop :=
| trans_quiet v :
    trans cap ord v v
| trans_warning m ws n q nv d dt l op_type :
    trans cap ord (mkView m ws n q nv d dt l)
              (mkView m ws n q nv d dt (l ++ [EvWarning op_type]))
| trans_enqueue_hold ws n q d dt l t :
    (ord = true → dt = NotStarted) →
    Z.of_nat (length (q ++ [t])) > n →
    trans cap ord (mkView false ws n q false d dt l)
              (mkView true ws n (q ++ [t]) false d dt (l ++ [EvEnqueue t]))
| trans_enqueue_notify ws n q d dt l t :
    (ord = true → dt = NotStarted) →
    Z.of_nat (length (q ++ [t])) ≤ n →
    trans cap ord (mkView false ws n q false d dt l)
              (mkView false ws n (q ++ [t]) false d dt
                      (l ++ [EvEnqueue t; EvNotifyAll]))
| trans_grow ws n q nv d dt l k :
    k = Z.to_nat (Z.min cap
                    (to_int (Z.of_nat (length ws) +
                             to_int (Z.of_nat (length q) - n))) -
                  Z.of_nat (length ws)) →
    trans cap ord (mkView true ws n q nv d dt l)
              (mkView false (ws ++ replicate k AtEntry) (n + Z.of_nat k) q nv d dt
                      (l ++ (EvSpawn <$> seq (length ws) k) ++ [EvNotifyAll]))
| trans_dequeue ws n fn q nv d dt l i pc :
    ws !! i = Some pc → takes_lock pc = true →
    trans cap ord (mkView false ws n (fn :: q) nv d dt l)
              (mkView false (<[i := Running fn]> ws) (n - 1) q nv d dt
                      (l ++ [EvDequeue i fn]))
| trans_wait ws n nv dt l i pc :
    ws !! i = Some pc → takes_lock pc = true →
    trans cap ord (mkView false ws n [] nv false dt l)
              (mkView false (<[i := AtWait]> ws) n [] nv false dt l)
| trans_exit ws n nv dt l i pc :
    ws !! i = Some pc → takes_lock pc = true →
    trans cap ord (mkView false ws n [] nv true dt l)
              (mkView false (<[i := Exited]> ws) n [] nv true dt (l ++ [EvExit i]))
| trans_done m ws n q nv d dt l i fn :
    ws !! i = Some (Running fn) →
    trans cap ord (mkView m ws n q nv d dt l)
              (mkView m (<[i := Finished]> ws) n q nv d dt (l ++ [EvDone i fn]))
| trans_incr m ws n q nv d dt l i :
    ws !! i = Some Finished →
    trans cap ord (mkView m ws n q nv d dt l)
              (mkView m (<[i := AtRelock]> ws) (n + 1) q nv d dt l)
| trans_destroy_naive m ws n q d l :
    trans cap ord (mkView m ws n q true d NotStarted l)
              (mkView m ws n q true d Destroyed l)
| trans_destroy_start ws n q d l :
    trans cap ord (mkView false ws n q false d NotStarted l)
              (mkView false ws n q false true (Joining 0) (l ++ [EvNotifyAll]))
| trans_join m ws n q nv d l k :
    ws !! k = Some Exited →
    trans cap ord (mkView m ws n q nv d (Joining k) l)
              (mkView m ws n q nv d (Joining (S k)) (l ++ [EvJoin k]))
| trans_destroy_end m ws n q nv d l k :
    ws !! k = None →
    trans cap ord (mkView m ws n q nv d (Joining k) l)
              (mkView m ws n q nv d Destroyed l).

(** What a worker does in one critical section, whatever program point it
    enters it from: it takes the head of the queue when there is one, returns
    when the queue is empty and the object is being destructed, and waits
    otherwise. *)
Definition critical_section (i : nat) (s : State) : State :=
  match q_ s with
  | fn :: q' =>
      set_pc i (Running fn)
        (record (EvDequeue i fn)
           (set_q q' (set_num_free_threads (to_uint32 (num_free_threads s - 1)) s)))
  | [] =>
      if destructing_ s
      then record (EvExit i) (set_pc i Exited s)
      else set_pc i AtWait s
  end.

(** The state after [k] more workers were started. *)
Definition spawned_state (k : nat) (s : State) : State :=
  mkState (mutex_ s) (registry_ s) (workers_ s ++ replicate k AtEntry)
          (num_free_threads s + Z.of_nat k) (q_ s) (naive_engine_ s)
          (destructing_ s) (dtor s)
          (mkRuntime (world (rt s)) (engine (rt s))
                     (log (rt s) ++ (EvSpawn <$> seq (length (workers_ s)) k))).

(** The cap on the pool size, as [SetNumThreads] reads it. *)
Definition max_threads (env : Env) : Z :=
  GetEnv (MXNET_CUSTOM_OP_NUM_THREADS env) 16.

(** The idle count is the number of workers not inside a task, and the pool
    is within the cap. *)
Definition pool_inv (env : Env) (s : State) : Prop :=
  num_free_threads s = idle_count (workers_ s) ∧
  Z.of_nat (length (workers_ s)) ≤ Z.max 0 (Z.min (max_threads env) (2 ^ 31 - 1)).

(** Dequeue order is enqueue order: what was enqueued is what was dequeued
    followed by what is still queued. *)
Definition fifo_inv (v : View) : Prop :=
  enqueued (v_log v) = dequeued (v_log v) ++ v_q v.

(** A worker has completed every task it dequeued, in that order, except
    the one it is running; a thread that does not exist has dequeued
    nothing. *)
Definition worker_inv (v : View) : Prop :=
  ∀ i, dequeued_by i (v_log v) =
       completed_by i (v_log v) ++ running_task (v_workers v !! i).

Definition index_inv (v : View) : Prop :=
  ∀ i, (length (v_workers v) ≤ i)%nat →
       dequeued_by i (v_log v) = [] ∧ completed_by i (v_log v) = [].

(** What holds of shutdown when no task is submitted after the destructor
    was entered: the flag is set exactly by the destructor, which then finds
    the lock free; a worker has only returned with the flag set and the queue
    empty; the destructor has joined the workers before its position, each
    once, and all of them when it is done. *)
Definition shutdown_inv (v : View) : Prop :=
  (v_destructing v = true → v_dtor v ≠ NotStarted) ∧
  (v_dtor v ≠ NotStarted → v_naive v = false →
     v_mutex v = false ∧ v_destructing v = true) ∧
  (∀ i, v_workers v !! i = Some Exited → v_destructing v = true ∧ v_q v = []) ∧
  match v_dtor v with
  | NotStarted => joined (v_log v) = []
  | Joining k =>
      v_naive v = false ∧ joined (v_log v) = seq 0 k ∧
      (k ≤ length (v_workers v))%nat ∧
      ∀ i, (i < k)%nat → v_workers v !! i = Some Exited
  | Destroyed =>
      joined (v_log v) =
        (if v_naive v then [] else seq 0 (length (v_workers v))) ∧
      (v_naive v = false → ∀ i pc, v_workers v !! i = Some pc → pc = Exited)
  end.

(** With a cap of at least one, the first task ever queued gets a worker: a
    queue without any worker is empty, or holds the one task whose [Push]
    still has the lock and is about to grow the pool. *)
Definition first_worker_inv (cap : Z) (v : View) : Prop :=
  1 ≤ cap → v_workers v = [] →
  v_q v = [] ∨ (v_mutex v = true ∧ length (v_q v) = 1%nat).

(** In naive mode the pool machinery is never touched. *)
Definition naive_inv (v : View) : Prop :=
  v_naive v = true →
  v_workers v = [] ∧ v_q v = [] ∧ v_mutex v = false ∧
  v_destructing v = false ∧ joined (v_log v) = [].

(** The growth rule with the demand taken as the number of pending plus
    running tasks: after [Push] of [t] in state [s], including the growth
    step when the caller kept the lock. *)
Definition grows_by_pending_plus_running (env : Env) (s : State) (t : Task) : Prop :=
  ∀ s1 s2,
    step env (CallPush t) s = Some s1 →
    (if mutex_ s1 then step env PushGrow s1 else Some s1) = Some s2 →
    let size := Z.of_nat (length (workers_ s)) in
    let demand := Z.of_nat (length (q_ s1)) + running_count (workers_ s) in
    let idle := num_free_threads s in
    if demand >? idle
    then Z.of_nat (length (workers_ s2)) =
         Z.max size (Z.min (max_threads env) (size + (demand - idle)))
    else workers_ s2 = workers_ s.

(** ** Sample values *)

Definition dense_a : NDArray := mkNDArray kDefaultStorage 10 1.
Definition sparse_b : NDArray := mkNDArray kCSRStorage 11 2.
Definition out_b : NDArray := mkNDArray kCSRStorage 12 3.

(** [func] of the sample task gives the chunk of [sparse_b] new storage. *)
Definition sample_func (w : World) : World :=
  {| is_recording := is_recording w; is_training := is_training w;
     shandle := <[ptr_ sparse_b := 77]> (shandle w) |}.

Definition sample_task : Task :=
  {| func := sample_func; ctx := mkOpContext 0 1;
     recording := true; training := false;
     arrs := [dense_a; sparse_b]; tags := [0; 1]; output_tags := {[1]};
     outputs := [out_b] |}.

Definition sample_world : World :=
  {| is_recording := false; is_training := true;
     shandle := {[1%nat := 5; 2%nat := 6; 3%nat := 7]} |}.

Definition sample_runtime : Runtime :=
  {| world := sample_world; engine := []; log := [] |}.

(** Two tasks without tensors, told apart by their completion callbacks,
    and a schedule on which two workers finish them in the opposite order. *)
Definition task_1 : Task :=
  {| func := λ w, w; ctx := mkOpContext 0 1; recording := false;
     training := false; arrs := []; tags := []; output_tags := ∅; outputs := [] |}.
Definition task_2 : Task :=
  {| func := λ w, w; ctx := mkOpContext 0 2; recording := false;
     training := false; arrs := []; tags := []; output_tags := ∅; outputs := [] |}.

Definition default_env : Env := mkEnv None None.

Definition overtaking_schedule : list Action :=
  [CallPush task_1; PushGrow; WorkerStep 0;
   CallPush task_2; PushGrow; WorkerStep 1;
   WorkerStep 1; WorkerStep 0].

(** The state at the end of [overtaking_schedule]. *)
Definition overtaken_state : State :=
  default (CustomOperator_new default_env sample_world)
    (run default_env overtaking_schedule
       (CustomOperator_new default_env sample_world)).

(** One worker, busy with [task_1], and nothing queued. *)
Definition busy_state : State :=
  default (CustomOperator_new default_env sample_world)
    (run default_env [CallPush task_1; PushGrow; WorkerStep 0]
       (CustomOperator_new default_env sample_world)).

(** A run that ends with the destructor done: two tasks are queued, the
    destructor is entered, the first worker drains the queue and returns, the
    second returns at once, both are joined. *)
Definition shutdown_schedule : list Action :=
  [CallPush task_1; PushGrow; CallPush task_2; PushGrow; Destruct;
   WorkerStep 0; WorkerStep 0; WorkerStep 0;
   WorkerStep 0; WorkerStep 0; WorkerStep 0;
   WorkerStep 0; WorkerStep 1; Destruct; Destruct; Destruct].

Definition shutdown_state : State :=
  default (CustomOperator_new default_env sample_world)
    (orderly_run default_env shutdown_schedule
       (CustomOperator_new default_env sample_world)).

(** ** Further projections and schedules *)

(** The tasks whose [func] has run, in the order it ran. *)
Definition funcs_run (l : list Event) : list Task :=
  omap (λ e, match e with EvFunc t => Some t | _ => None end) l.

(** The tasks submitted by the [Push] calls of a schedule. *)
Definition pushes (acts : list Action) : list Task :=
  omap (λ a, match a with CallPush t => Some t | _ => None end) acts.

(** The tasks the workers are inside of. *)
Definition running_tasks (ws : list WorkerPc) : list Task :=
  flat_map (λ pc, running_task (Some pc)) ws.

(** The completion signals still owed by the downstream engine. *)
Definition pending_completions (ops : list SyncOp) : list OpContext :=
  (λ op, ctx (exec_fun op)) <$> ops.

(** [Push] of each task in turn, every call running to its end before the
    next one and before any worker moves. *)
Definition burst (ts : list Task) : list Action :=
  flat_map (λ t, [CallPush t; PushGrow]) ts.

(** One task through the pooled path: submitted, taken by the first worker,
    run, and finished by the downstream engine. *)
Definition pooled_pipeline (t : Task) : list Action :=
  [CallPush t; PushGrow; WorkerStep 0; WorkerStep 0; EngineStep 0].

Definition is_sparse (a : NDArray) : Prop :=
  is_dense_or_undefined (storage_type a) = false.

(** What every step keeps of the log and of the downstream engine: each
    [func] that ran has its completion signalled or owed, once; in pooled
    mode [func] has run exactly for the tasks whose body a worker finished. *)
Definition exec_inv (s : State) : Prop :=
  ctx <$> funcs_run (log (rt s)) ≡ₚ
    completions (log (rt s)) ++ pending_completions (engine (rt s)) ∧
  (naive_engine_ s = false → funcs_run (log (rt s)) = completed (log (rt s))).

(** No task is lost or taken twice. *)
Definition conservation_inv (v : View) : Prop :=
  enqueued (v_log v) ≡ₚ completed (v_log v) ++ running_tasks (v_workers v) ++ v_q v.

#[global] Instance is_sparse_dec (a : NDArray) : Decision (is_sparse a) :=
  bool_eq_dec (is_dense_or_undefined (storage_type a)) false.

(** The state after one task went through the pooled path. *)
Definition pipeline_state : State :=
  default (CustomOperator_new default_env sample_world)
    (run default_env (pooled_pipeline sample_task)
       (CustomOperator_new default_env sample_world)).

Definition naive_env : Env := mkEnv (Some "NaiveEngine") None.

(** A second [Push] holds the lock while the only worker is inside
    [task_1]. *)
Definition held_state : State :=
  default (CustomOperator_new default_env sample_world)
    (run default_env [CallPush task_1; PushGrow; WorkerStep 0; CallPush task_2]
       (CustomOperator_new default_env sample_world)).


(** Both workers have returned and the destructor, entered, has not joined
    them yet. *)
Definition returned_state : State :=
  default (CustomOperator_new default_env sample_world)
    (run default_env
       [CallPush task_1; PushGrow; CallPush task_2; PushGrow; Destruct;
        WorkerStep 0; WorkerStep 0; WorkerStep 0;
        WorkerStep 0; WorkerStep 0; WorkerStep 0;
        WorkerStep 0; WorkerStep 1]
       (CustomOperator_new default_env sample_world)).

(** * Properties *)

Arguments locked : simpl never.
Arguments task_body : simpl never.
Arguments Push_naive : simpl never.
Arguments sync_closure : simpl never.
Arguments CreateThreads : simpl never.

(** ** Reconciliation *)

Section PatchFacts.
Variables (arrs0 : list NDArray) (tags0 : list Z)
          (output_tags0 : gset Z) (outputs0 : list NDArray).

Lemma naive_sync_patch_from n i k r :
  naive_patch_from arrs0 tags0 output_tags0 outputs0 n i k r =
  sync_patch_from arrs0 tags0 output_tags0 outputs0 n i k r.
Proof.
  revert i k r. induction n as [|n IH]; intros i k r; simpl; [done|].
  destruct (arrs0 !! i) as [a|]; simpl; [|done].
  destruct (is_dense_or_undefined (storage_type a)); [apply IH|].
  destruct (tags0 !! i) as [tag|]; simpl; [|done].
  destruct (bool_decide (tag ∈ output_tags0)); [|apply IH].
  destruct (outputs0 !! k) as [o|]; simpl; [apply IH|done].
Qed.

Lemma naive_patch_from_rebind rest i k r :
  drop i arrs0 = rest →
  (length arrs0 ≤ length tags0)%nat →
  (k + length (qualifying_from tags0 output_tags0 i rest) ≤ length outputs0)%nat →
  naive_patch_from arrs0 tags0 output_tags0 outputs0 (length rest) i k r =
  Some (rebind_all (drop k outputs0)
          (qualifying_from tags0 output_tags0 i rest) k r).
Proof.
  revert i k r. induction rest as [|a rest IH]; intros i k r Hdrop Htags Hout.
  { simpl. by destruct (drop k outputs0). }
  assert (Ha : arrs0 !! i = Some a).
  { rewrite <- (Nat.add_0_r i), <- lookup_drop, Hdrop. done. }
  assert (Hrest : drop (S i) arrs0 = rest).
  { rewrite (drop_S _ _ _ Ha) in Hdrop. by injection Hdrop. }
  apply lookup_lt_Some in Ha as Hlt.
  destruct (lookup_lt_is_Some_2 tags0 i) as [tag Htag]; [lia|].
  simpl in *. rewrite Ha. simpl. unfold qualifies in *. rewrite Htag in *.
  destruct (is_dense_or_undefined (storage_type a)); simpl in *.
  { by apply IH. }
  destruct (bool_decide (tag ∈ output_tags0)); simpl in *; [|by apply IH].
  destruct (lookup_lt_is_Some_2 outputs0 k) as [o Ho]; [lia|].
  rewrite Ho. simpl. rewrite (drop_S _ _ _ Ho). simpl.
  apply IH; [done|done|lia].
Qed.
End PatchFacts.

Lemma rebind_all_log outs srcs k r :
  (length srcs ≤ length outs)%nat →
  log (rebind_all outs srcs k r) = log r ++ rebind_events k srcs.
Proof.
  revert outs k r. induction srcs as [|[i a] srcs IH]; intros outs k r Hlen.
  { destruct outs; simpl; by rewrite app_nil_r. }
  destruct outs as [|o outs]; simpl in *; [lia|].
  rewrite IH by lia. simpl. by rewrite <- app_assoc.
Qed.

Lemma rebind_all_world outs srcs k r :
  world (rebind_all outs srcs k r) =
  foldl (λ w p, SparseUpdateChunk p.1 p.2.2 w) (world r) (zip outs srcs).
Proof.
  revert srcs k r. induction outs as [|o outs IH]; intros srcs k r; [done|].
  destruct srcs as [|[i a] srcs]; simpl; [done|]. by rewrite IH.
Qed.

Lemma rebind_all_engine outs srcs k r :
  engine (rebind_all outs srcs k r) = engine r.
Proof.
  revert srcs k r. induction outs as [|o outs IH]; intros srcs k r; [done|].
  destruct srcs as [|[i a] srcs]; simpl; [done|]. by rewrite IH.
Qed.

Lemma rebind_all_frame outs srcs k r p :
  p ∉ ptr_ <$> outs →
  shandle (world (rebind_all outs srcs k r)) !! p = shandle (world r) !! p.
Proof.
  revert srcs k r. induction outs as [|o outs IH]; intros srcs k r Hp; [done|].
  destruct srcs as [|[i a] srcs]; simpl; [done|].
  rewrite fmap_cons, not_elem_of_cons in Hp. destruct Hp as [Hne Hp].
  rewrite IH by done. simpl. by rewrite lookup_partial_alter_ne.
Qed.

Lemma elem_of_qualifying_from tags0 output_tags0 j rest i a :
  (i, a) ∈ qualifying_from tags0 output_tags0 j rest ↔
  ∃ d, rest !! d = Some a ∧ i = (j + d)%nat ∧ qualifies tags0 output_tags0 i a = true.
Proof.
  revert j. induction rest as [|b rest IH]; intros j; simpl.
  { split; [by intros ?%elem_of_nil | by intros (d & ? & _)]. }
  assert (Hrest : (i, a) ∈ qualifying_from tags0 output_tags0 (S j) rest ↔
      ∃ d, (b :: rest) !! S d = Some a ∧ i = (j + S d)%nat ∧
           qualifies tags0 output_tags0 i a = true).
  { rewrite IH. split; intros (d & ? & ? & ?); exists d; (split; [done|split; [lia|done]]). }
  destruct (qualifies tags0 output_tags0 j b) eqn:Hq.
  - rewrite elem_of_cons, Hrest. split.
    + intros [[= -> ->]|(d & ? & ? & ?)].
      * exists 0%nat. split; [done|]. split; [lia|done].
      * by exists (S d).
    + intros ([|d] & Hd & -> & Hq').
      * left. simpl in Hd. injection Hd as ->. f_equal. lia.
      * right. by exists d.
  - rewrite Hrest. split.
    + intros (d & ? & ? & ?). by exists (S d).
    + intros ([|d] & Hd & -> & Hq').
      * simpl in Hd. injection Hd as ->. rewrite Nat.add_0_r in Hq'. congruence.
      * by exists d.
Qed.

Lemma qualifying_from_sorted tags0 output_tags0 j rest :
  StronglySorted (λ p q : nat * NDArray, (p.1 < q.1)%nat)
    (qualifying_from tags0 output_tags0 j rest).
Proof.
  revert j. induction rest as [|b rest IH]; intros j; simpl; [constructor|].
  destruct (qualifies tags0 output_tags0 j b); [|apply IH].
  constructor; [apply IH|]. apply Forall_forall. intros [i a] Hin.
  apply elem_of_qualifying_from in Hin as (d & _ & -> & _). simpl. lia.
Qed.

Lemma qualifies_spec tags0 output_tags0 i a :
  qualifies tags0 output_tags0 i a = true ↔
  is_dense_or_undefined (storage_type a) = false ∧
  ∃ tag, tags0 !! i = Some tag ∧ tag ∈ output_tags0.
Proof.
  unfold qualifies. rewrite andb_true_iff, negb_true_iff.
  destruct (tags0 !! i) as [tag|].
  - rewrite bool_decide_eq_true. split.
    + intros [? ?]. split; [done|]. by exists tag.
    + intros [? (tag' & [= <-] & ?)]. done.
  - split; [by intros [_ ?]|]. by intros [_ (tag & ? & _)].
Qed.

(** C1 (sparse reconciliation pass).  When [tags] is as long as [arrs] and
    [outputs] has one entry per qualifying entry, the pass of the naive path
    and the one inside the closure given to [PushSync] both succeed with the
    same result: output [k] is rebound to the [k]-th qualifying entry of
    [arrs] (non-dense, defined, tag among the output tags), in increasing
    order of position; the calls made are exactly these, so dense and
    undefined entries take no part, and only storage reached through
    [outputs] changes. *)
Theorem sparse_reconciliation_pass (t : Task) (r : Runtime) :
  length (tags t) = length (arrs t) →
  length (outputs t) = length (qualifying t) →
  ∃ r',
    naive_patch (arrs t) (tags t) (output_tags t) (outputs t) r = Some r' ∧
    sync_patch (arrs t) (tags t) (output_tags t) (outputs t) r = Some r' ∧
    r' = rebind_all (outputs t) (qualifying t) 0 r ∧
    log r' = log r ++ rebind_events 0 (qualifying t) ∧
    world r' =
      foldl (λ w p, SparseUpdateChunk p.1 p.2.2 w) (world r)
            (zip (outputs t) (qualifying t)) ∧
    (∀ i a, (i, a) ∈ qualifying t ↔
            arrs t !! i = Some a ∧
            is_dense_or_undefined (storage_type a) = false ∧
            ∃ tag, tags t !! i = Some tag ∧ tag ∈ output_tags t) ∧
    StronglySorted (λ p q : nat * NDArray, (p.1 < q.1)%nat) (qualifying t) ∧
    (∀ p, p ∉ ptr_ <$> outputs t →
          shandle (world r') !! p = shandle (world r) !! p) ∧
    engine r' = engine r.
Proof.
  intros Htags Hout.
  pose proof (naive_patch_from_rebind (arrs t) (tags t) (output_tags t)
                (outputs t) (arrs t) 0 0 r eq_refl) as Hnaive.
  fold (qualifying t) in Hnaive. rewrite drop_0 in Hnaive.
  specialize (Hnaive ltac:(lia) ltac:(lia)).
  exists (rebind_all (outputs t) (qualifying t) 0 r).
  split; [exact Hnaive|].
  split; [unfold sync_patch; rewrite <- naive_sync_patch_from; exact Hnaive|].
  split; [done|].
  split; [apply rebind_all_log; lia|].
  split; [apply rebind_all_world|].
  split.
  { intros i a. unfold qualifying. rewrite elem_of_qualifying_from. split.
    - intros (d & Hd & -> & Hq). apply qualifies_spec in Hq. done.
    - intros (Ha & Hq). exists i. split; [done|]. split; [done|].
      by apply qualifies_spec. }
  split; [apply qualifying_from_sorted|].
  split; [intros p Hp; by apply rebind_all_frame|].
  apply rebind_all_engine.
Qed.

(** ** The variable lists of the pooled path *)

Lemma build_vars_from_spec tags0 output_tags0 rest vars vars2 :
  (length vars2 + length rest ≤ length tags0)%nat →
  build_vars_from tags0 output_tags0 rest (length vars2) vars vars2 =
  Some (vars ++ (var <$> rest), write_vars tags0 output_tags0 rest vars2).
Proof.
  revert vars vars2. induction rest as [|a rest IH]; intros vars vars2 Hlen.
  { simpl. by rewrite app_nil_r. }
  cbn [length] in Hlen.
  destruct (lookup_lt_is_Some_2 tags0 (length vars2)) as [tag Htag]; [lia|].
  cbn [build_vars_from write_vars]. rewrite Htag. cbn [mbind option_bind].
  rewrite fmap_cons.
  replace (vars ++ var a :: (var <$> rest))
    with ((vars ++ [var a]) ++ (var <$> rest)) by (by rewrite <- app_assoc).
  destruct (bool_decide (tag ∈ output_tags0)); cbn [andb]; [|apply IH; lia].
  destruct (is_dense_or_undefined (storage_type a)); cbn [negb];
    [apply IH; lia|].
  replace (S (length vars2)) with (length (vars2 ++ [var a]))
    by (rewrite length_app; simpl; lia).
  apply IH. rewrite length_app. simpl. lia.
Qed.

Lemma build_vars_spec arrs0 tags0 output_tags0 :
  length tags0 = length arrs0 →
  build_vars arrs0 tags0 output_tags0 =
  Some (var <$> arrs0, write_vars tags0 output_tags0 arrs0 []).
Proof.
  intros Hlen. unfold build_vars.
  change 0%nat with (length (@nil Z)).
  rewrite build_vars_from_spec; [done|simpl; lia].
Qed.

(** C9 (read and write variables of the pooled path).  With [tags] as long
    as [arrs], the read list holds the variable of every entry in order, and
    the write list is the one the running append count decides: an entry's
    variable is appended when the tag at the number of variables appended so
    far is an output tag and the entry is neither dense nor undefined.  On
    the sample task (a dense entry tagged 0, a sparse one tagged 1, output
    tags {1}) the sparse entry's tag is an output tag, yet the write list is
    empty and so differs from the variables of the qualifying entries. *)
Theorem pooled_variable_lists :
  (∀ t : Task,
     length (tags t) = length (arrs t) →
     build_vars (arrs t) (tags t) (output_tags t) =
     Some (var <$> arrs t, write_vars (tags t) (output_tags t) (arrs t) [])) ∧
  (length (tags sample_task) = length (arrs sample_task) ∧
   qualifying sample_task = [(1%nat, sparse_b)] ∧
   build_vars (arrs sample_task) (tags sample_task) (output_tags sample_task) =
     Some ([var dense_a; var sparse_b], []) ∧
   (var ∘ snd) <$> qualifying sample_task = [var sparse_b]).
Proof.
  split.
  - intros t Hlen. by apply build_vars_spec.
  - by vm_compute.
Qed.

Lemma pooled_variable_lists_witness :
  build_vars (arrs sample_task) (tags sample_task) (output_tags sample_task) =
  Some (var <$> arrs sample_task,
        write_vars (tags sample_task) (output_tags sample_task) (arrs sample_task) []).
Proof. apply (proj1 pooled_variable_lists sample_task). reflexivity. Defined.

(** ** Flags around [func] *)

(** C3 (flag scoping on the pooled path).  The body of a queued task swaps
    its saved recording and training values in, keeping the values found;
    [func] is entered with the flags equal to the values given to [Push];
    after [func] the values found are put back, so the flags after the body
    are those before it, whatever they were and whatever [func] did. *)
Theorem flag_scoping (t : Task) (r : Runtime) :
  length (tags t) = length (arrs t) →
  ∃ prev_recording prev_training w_in r',
    flag_window_enter t (world r) = (prev_recording, prev_training, w_in) ∧
    prev_recording = is_recording (world r) ∧
    prev_training = is_training (world r) ∧
    is_recording w_in = recording t ∧
    is_training w_in = training t ∧
    shandle w_in = shandle (world r) ∧
    task_body t r = Some r' ∧
    world r' = flag_window_leave prev_recording prev_training (func t w_in) ∧
    is_recording (world r') = is_recording (world r) ∧
    is_training (world r') = is_training (world r) ∧
    shandle (world r') = shandle (func t w_in).
Proof.
  intros Hlen.
  eexists _, _, _, _. split; [reflexivity|].
  unfold task_body. rewrite build_vars_spec by done.
  simpl. repeat split; reflexivity.
Qed.

Lemma flag_scoping_witness :
  ∃ r', task_body sample_task sample_runtime = Some r' ∧
        is_recording (world r') = false ∧ is_training (world r') = true.
Proof.
  destruct (flag_scoping sample_task sample_runtime eq_refl)
    as (pr & pt & w_in & r' & _ & _ & _ & _ & _ & _ & Hbody & _ & Hr & Ht & _).
  exists r'. split; [exact Hbody|]. split; [exact Hr|exact Ht].
Defined.

Lemma sparse_reconciliation_pass_witness :
  ∃ r', naive_patch (arrs sample_task) (tags sample_task)
          (output_tags sample_task) (outputs sample_task)
          (on_world (func sample_task) sample_runtime) = Some r' ∧
        shandle (world r') !! ptr_ out_b = Some 77 ∧
        shandle (world r') !! ptr_ dense_a = Some 5.
Proof.
  destruct (sparse_reconciliation_pass sample_task
              (on_world (func sample_task) sample_runtime) eq_refl eq_refl)
    as (r' & Hnaive & _ & -> & _).
  eexists. split; [exact Hnaive|]. split; vm_compute; reflexivity.
Defined.

(** ** The naive path *)

Lemma omap_rebind_events {B} (f : Event → option B) k srcs :
  (∀ k' i, f (EvRebind k' i) = None) → omap f (rebind_events k srcs) = [].
Proof.
  intros Hf. revert k. induction srcs as [|[i a] srcs IH]; intros k; [done|].
  simpl. rewrite Hf. apply IH.
Qed.

(** C2 (naive mode is synchronous).  In naive mode one call of [Push], on
    arguments that meet its precondition, is a single step of the caller:
    [func] runs, then the reconciliation pass, then the completion signal,
    once and last; the queue, the workers, the idle count and the lock are
    as before, and nothing is handed to the downstream engine. *)
Theorem naive_push_synchronous (env : Env) (t : Task) (s : State) :
  naive_engine_ s = true →
  length (tags t) = length (arrs t) →
  length (outputs t) = length (qualifying t) →
  ∃ s',
    step env (CallPush t) s = Some s' ∧
    log (rt s') =
      log (rt s) ++ [EvFunc t] ++ rebind_events 0 (qualifying t) ++
      [EvComplete (ctx t)] ∧
    completions (log (rt s')) = completions (log (rt s)) ++ [ctx t] ∧
    enqueued (log (rt s')) = enqueued (log (rt s)) ∧
    spawned (log (rt s')) = spawned (log (rt s)) ∧
    world (rt s') =
      foldl (λ w p, SparseUpdateChunk p.1 p.2.2 w) (func t (world (rt s)))
            (zip (outputs t) (qualifying t)) ∧
    engine (rt s') = engine (rt s) ∧
    q_ s' = q_ s ∧ workers_ s' = workers_ s ∧
    num_free_threads s' = num_free_threads s ∧ mutex_ s' = mutex_ s ∧
    registry_ s' = registry_ s ∧ destructing_ s' = destructing_ s ∧
    dtor s' = dtor s ∧ naive_engine_ s' = true.
Proof.
  intros Hnaive Htags Hout.
  pose proof (naive_patch_from_rebind (arrs t) (tags t) (output_tags t)
                (outputs t) (arrs t) 0 0
                (emit (EvFunc t) (on_world (func t) (rt s))) eq_refl) as Hp.
  fold (qualifying t) in Hp. rewrite drop_0 in Hp.
  specialize (Hp ltac:(lia) ltac:(lia)).
  eexists. split.
  { simpl. unfold Push, Push_naive. rewrite Hnaive. unfold naive_patch.
    rewrite Hp. simpl. reflexivity. }
  assert (Hlog : log (rebind_all (outputs t) (qualifying t) 0
                        (emit (EvFunc t) (on_world (func t) (rt s)))) =
                 log (rt s) ++ [EvFunc t] ++ rebind_events 0 (qualifying t)).
  { rewrite rebind_all_log by lia. simpl. by rewrite <- !app_assoc. }
  simpl. rewrite Hlog, rebind_all_world, rebind_all_engine.
  unfold completions, enqueued, spawned.
  rewrite !omap_app, !omap_rebind_events by done. simpl.
  rewrite !app_nil_r, <- !app_assoc. done.
Qed.

Lemma naive_push_synchronous_witness :
  ∃ s', step (mkEnv (Some "NaiveEngine") None) (CallPush sample_task)
          (CustomOperator_new (mkEnv (Some "NaiveEngine") None) sample_world) =
        Some s' ∧
        log (rt s') = [EvFunc sample_task; EvRebind 0 1;
                       EvComplete (ctx sample_task)] ∧
        q_ s' = [] ∧ workers_ s' = [].
Proof.
  destruct (naive_push_synchronous (mkEnv (Some "NaiveEngine") None) sample_task
              (CustomOperator_new (mkEnv (Some "NaiveEngine") None) sample_world)
              eq_refl eq_refl eq_refl)
    as (s' & Hstep & Hlog & _ & _ & _ & _ & _ & Hq & Hw & _).
  exists s'. split; [exact Hstep|]. split; [exact Hlog|]. split; [exact Hq|exact Hw].
Defined.

(** ** The registry *)

Lemma Find_Register name n c s :
  Find name (Register n c s) = if bool_decide (n = name) then c else Find name s.
Proof.
  unfold Find, Register.
  assert (Hreg : ∀ s0, registry_ (set_registry (<[n:=c]> (registry_ s0)) s0) =
                       <[n:=c]> (registry_ s0)) by done.
  destruct (registry_ s !! n); rewrite Hreg; simpl;
    (case_bool_decide as Hn; [subst; by rewrite lookup_insert_eq
                             |by rewrite lookup_insert_ne]).
Qed.

Lemma Register_warnings n c s :
  warnings (log (rt (Register n c s))) =
  warnings (log (rt s)) ++ (if bool_decide (n ∈ dom (registry_ s)) then [n] else []).
Proof.
  unfold Register. case_bool_decide as Hn.
  - apply elem_of_dom in Hn as [c' Hc']. rewrite Hc'. simpl.
    unfold warnings. by rewrite omap_app.
  - apply not_elem_of_dom in Hn. rewrite Hn. simpl. by rewrite app_nil_r.
Qed.

Lemma Register_dom n c s :
  dom (registry_ (Register n c s)) = {[n]} ∪ dom (registry_ s).
Proof.
  unfold Register. destruct (registry_ s !! n); simpl; by rewrite dom_insert_L.
Qed.

Lemma Register_mutex n c s : mutex_ (Register n c s) = mutex_ s.
Proof. unfold Register. by destruct (registry_ s !! n). Qed.

Lemma run_registry_calls env acts s :
  mutex_ s = false →
  forallb is_registry_call acts = true →
  ∃ s', run env acts s = Some s' ∧
        (∀ name, Find name s' = default (Find name s) (latest name acts)) ∧
        warnings (log (rt s')) =
          warnings (log (rt s)) ++ overwrites (dom (registry_ s)) acts.
Proof.
  revert s. induction acts as [|a acts IH]; intros s Hm Hall.
  { exists s. simpl. by rewrite app_nil_r. }
  simpl in Hall. apply andb_true_iff in Hall as [Ha Hall].
  destruct a as [n c|n| | | | |]; try done; simpl; rewrite Hm; simpl.
  - destruct (IH (Register n c s)) as (s' & Hrun & Hfind & Hwarn);
      [by rewrite Register_mutex|done|].
    exists s'. split; [done|]. split.
    + intros name. rewrite Hfind, Find_Register.
      destruct (latest name acts); [done|]. simpl. by case_bool_decide.
    + rewrite Hwarn, Register_warnings, Register_dom, <- app_assoc. f_equal.
      destruct (bool_decide (n ∈ dom (registry_ s))) eqn:Hn; [|done].
      apply bool_decide_eq_true in Hn.
      simpl. do 2 f_equal.
      apply subseteq_union_1_L. by apply singleton_subseteq_l.
  - destruct (IH s) as (s' & Hrun & Hfind & Hwarn); [done|done|].
    exists s'. split; [done|]. split; [|done].
    intros name. rewrite Hfind. by destruct (latest name acts).
Qed.

(** C4 (registry).  Any sequence of [Register] and [Find] calls on a fresh
    object runs to the end; afterwards [Find] of a name gives the creator of
    the most recent [Register] of that name, and [nullptr] when there was
    none; the warnings logged are the re-registrations, one warning each. *)
Theorem registry_last_writer_wins (env : Env) (w0 : World) (acts : list Action) :
  forallb is_registry_call acts = true →
  ∃ s,
    run env acts (CustomOperator_new env w0) = Some s ∧
    (∀ name, Find name s = default nullptr (latest name acts)) ∧
    (∀ name, latest name acts = None → Find name s = nullptr) ∧
    warnings (log (rt s)) = overwrites ∅ acts.
Proof.
  intros Hall.
  destruct (run_registry_calls env acts (CustomOperator_new env w0) eq_refl Hall)
    as (s & Hrun & Hfind & Hwarn).
  exists s. split; [done|]. split; [exact Hfind|]. split.
  - intros name Hnone. by rewrite Hfind, Hnone.
  - rewrite Hwarn. simpl. by rewrite dom_empty_L.
Qed.

Lemma registry_last_writer_wins_witness :
  ∃ s, run (mkEnv None None)
         [CallRegister "A" 1; CallFind "A"; CallRegister "A" 2; CallFind "B"]
         (CustomOperator_new (mkEnv None None) sample_world) = Some s ∧
       Find "A" s = 2 ∧ Find "B" s = nullptr ∧
       warnings (log (rt s)) = ["A"].
Proof.
  destruct (registry_last_writer_wins (mkEnv None None) sample_world
              [CallRegister "A" 1; CallFind "A"; CallRegister "A" 2; CallFind "B"]
              eq_refl)
    as (s & Hrun & Hfind & _ & Hwarn).
  exists s. split; [exact Hrun|].
  split; [exact (Hfind "A")|]. split; [exact (Hfind "B")|exact Hwarn].
Defined.

(** ** Machine integers *)

Lemma to_int_small z : - 2 ^ 31 ≤ z < 2 ^ 31 → to_int z = z.
Proof. intros Hz. unfold to_int. rewrite Z.mod_small; lia. Qed.

Lemma to_int_range z : - 2 ^ 31 ≤ to_int z < 2 ^ 31.
Proof.
  unfold to_int. pose proof (Z.mod_pos_bound (z + 2 ^ 31) (2 ^ 32)). lia.
Qed.

Lemma to_uint32_small z : 0 ≤ z < 2 ^ 32 → to_uint32 z = z.
Proof. intros Hz. unfold to_uint32. rewrite Z.mod_small; lia. Qed.

Lemma to_int_to_size_t z : to_int (to_size_t z) = to_int z.
Proof.
  unfold to_int, to_size_t.
  replace (2 ^ 64) with (2 ^ 32 * 2 ^ 32) by lia.
  rewrite Z.rem_mul_r by lia.
  rewrite Z.add_comm, (Z.add_comm z), Z.mul_comm.
  rewrite Z.add_assoc, Z.mod_add by lia.
  rewrite Zplus_mod_idemp_r. done.
Qed.

(** ** The idle count *)

Lemma idle_count_bounds ws : 0 ≤ idle_count ws ≤ Z.of_nat (length ws).
Proof.
  induction ws as [|pc ws IH]; simpl; [lia|]. destruct (is_idle pc); lia.
Qed.

Lemma idle_count_app ws ws' : idle_count (ws ++ ws') = idle_count ws + idle_count ws'.
Proof. induction ws as [|pc ws IH]; simpl; [done|]. rewrite IH. lia. Qed.

Lemma idle_count_replicate k : idle_count (replicate k AtEntry) = Z.of_nat k.
Proof. induction k as [|k IH]; simpl; [done|]. rewrite IH. lia. Qed.

Lemma idle_count_insert ws i pc pc' :
  ws !! i = Some pc →
  idle_count (<[i := pc']> ws) =
  idle_count ws - (if is_idle pc then 1 else 0) + (if is_idle pc' then 1 else 0).
Proof.
  revert i. induction ws as [|p ws IH]; intros i Hi; [done|].
  destruct i as [|i]; simpl in *.
  - injection Hi as ->. lia.
  - rewrite (IH i Hi). lia.
Qed.

Lemma idle_count_pos ws i pc :
  ws !! i = Some pc → is_idle pc = true → 1 ≤ idle_count ws.
Proof.
  revert i. induction ws as [|p ws IH]; intros i Hi Hidle; [done|].
  destruct i as [|i]; simpl in *.
  - injection Hi as ->. rewrite Hidle. pose proof (idle_count_bounds ws). lia.
  - pose proof (IH i Hi Hidle). destruct (is_idle p); lia.
Qed.

Lemma takes_lock_idle pc : takes_lock pc = true → is_idle pc = true.
Proof. by destruct pc. Qed.

(** ** Pool growth *)

Lemma spawned_state_0 s : spawned_state 0 s = s.
Proof.
  destruct s as [m rg ws n q nv d dt [w e l]]. unfold spawned_state. simpl.
  by rewrite !app_nil_r, Z.add_0_r.
Qed.

Lemma spawned_state_spawn k s :
  0 ≤ num_free_threads s < 2 ^ 32 - 1 →
  spawned_state k (spawn s) = spawned_state (S k) s.
Proof.
  intros Hn. destruct s as [m rg ws n q nv d dt [w e l]].
  unfold spawned_state, spawn. simpl in *.
  rewrite to_uint32_small by lia.
  rewrite <- !app_assoc, length_app. simpl.
  replace (length ws + 1)%nat with (S (length ws)) by lia.
  f_equal. lia.
Qed.

Lemma spawn_loop_spawned n i num_threads s :
  i = Z.of_nat (length (workers_ s)) →
  num_threads ≤ 2 ^ 31 - 1 →
  0 ≤ num_free_threads s ≤ i →
  num_threads - i ≤ Z.of_nat n →
  spawn_loop n i num_threads s = spawned_state (Z.to_nat (num_threads - i)) s.
Proof.
  revert i s. induction n as [|n IH]; intros i s Hi Hnt Hfree Hn.
  { simpl. replace (Z.to_nat (num_threads - i)) with 0%nat by lia.
    by rewrite spawned_state_0. }
  simpl. destruct (Z.ltb_spec i num_threads) as [Hlt|Hge].
  - rewrite (to_int_small (i + 1)) by lia.
    rewrite IH.
    + rewrite spawned_state_spawn by lia. f_equal. lia.
    + unfold spawn. simpl. rewrite length_app. simpl. lia.
    + done.
    + unfold spawn. simpl. rewrite to_uint32_small by lia. lia.
    + lia.
  - replace (Z.to_nat (num_threads - i)) with 0%nat by lia.
    by rewrite spawned_state_0.
Qed.

Lemma SetNumThreads_spawned env num_threads s :
  pool_inv env s →
  num_threads ≤ 2 ^ 31 - 1 →
  SetNumThreads env num_threads s =
  spawned_state
    (Z.to_nat (Z.min (max_threads env) num_threads - Z.of_nat (length (workers_ s)))) s.
Proof.
  intros [Hfree Hbound] Hnt. unfold SetNumThreads. fold (max_threads env).
  pose proof (idle_count_bounds (workers_ s)).
  rewrite to_int_small by lia.
  apply spawn_loop_spawned; lia.
Qed.

Lemma CreateThreads_spawned env num_new_threads s :
  pool_inv env s →
  CreateThreads env num_new_threads s =
  spawned_state
    (Z.to_nat (Z.min (max_threads env)
                 (to_int (Z.of_nat (length (workers_ s)) + num_new_threads)) -
               Z.of_nat (length (workers_ s)))) s.
Proof.
  intros Hinv. unfold CreateThreads. rewrite to_int_to_size_t.
  apply SetNumThreads_spawned; [done|].
  pose proof (to_int_range (Z.of_nat (length (workers_ s)) + num_new_threads)). lia.
Qed.

Lemma spawned_state_pool_inv env k s :
  pool_inv env s →
  Z.of_nat (length (workers_ s) + k) ≤
    Z.max (Z.of_nat (length (workers_ s))) (Z.min (max_threads env) (2 ^ 31 - 1)) →
  pool_inv env (spawned_state k s).
Proof.
  intros [Hfree Hbound] Hk. split; simpl.
  - rewrite idle_count_app, idle_count_replicate. lia.
  - rewrite length_app, length_replicate. lia.
Qed.

(** ** The worker's critical section *)

Lemma locked_critical_section loc i s :
  locked 4 loc i s = Some (critical_section i s).
Proof.
  unfold critical_section.
  destruct loc; unfold locked, q_empty;
    destruct (q_ s) as [|fn q'], (destructing_ s); reflexivity.
Qed.

(** ** Runs *)

Lemma run_app env acts acts' s :
  run env (acts ++ acts') s = run env acts s ≫= run env acts'.
Proof.
  revert s. induction acts as [|a acts IH]; intros s; simpl; [done|].
  destruct (step env a s) as [s1|]; simpl; [apply IH|done].
Qed.

Lemma reachable_new env w0 : reachable env (CustomOperator_new env w0).
Proof. by exists w0, []. Qed.

Lemma reachable_step env a s s' :
  reachable env s → step env a s = Some s' → reachable env s'.
Proof.
  intros (w0 & acts & Hrun) Hstep. exists w0, (acts ++ [a]).
  rewrite run_app, Hrun. simpl. by rewrite Hstep.
Qed.

Lemma reachable_invariant env (P : State → Prop) :
  (∀ w0, P (CustomOperator_new env w0)) →
  (∀ a s s', reachable env s → P s → step env a s = Some s' → P s') →
  ∀ s, reachable env s → P s.
Proof.
  intros Hinit Hstep s (w0 & acts & Hrun).
  assert (Hgen : ∀ acts s0 s1,
             reachable env s0 → P s0 → run env acts s0 = Some s1 → P s1).
  { clear -Hstep. intros acts. induction acts as [|a acts IH];
      intros s0 s1 Hr HP Hrun; simpl in Hrun.
    - by injection Hrun as <-.
    - destruct (step env a s0) as [s2|] eqn:Hs; [|done].
      eapply (IH s2); [by eapply reachable_step|by eapply Hstep|done]. }
  eapply Hgen; [apply reachable_new|apply Hinit|exact Hrun].
Qed.

(** ** The pool invariant *)

Lemma Register_fields n c s :
  mutex_ (Register n c s) = mutex_ s ∧
  workers_ (Register n c s) = workers_ s ∧
  num_free_threads (Register n c s) = num_free_threads s ∧
  q_ (Register n c s) = q_ s ∧
  naive_engine_ (Register n c s) = naive_engine_ s ∧
  destructing_ (Register n c s) = destructing_ s ∧
  dtor (Register n c s) = dtor s.
Proof. unfold Register. by destruct (registry_ s !! n). Qed.

Lemma Push_grow_spawned env s s' :
  pool_inv env s →
  Push_grow env s = Some s' →
  mutex_ s = true ∧
  s' = set_mutex false (notify_all (spawned_state
         (Z.to_nat (Z.min (max_threads env)
            (to_int (Z.of_nat (length (workers_ s)) +
                     to_int (Z.of_nat (length (q_ s)) - num_free_threads s))) -
          Z.of_nat (length (workers_ s)))) s)).
Proof.
  intros Hinv. unfold Push_grow. destruct (mutex_ s); [|done].
  intros [= <-]. split; [done|].
  by rewrite CreateThreads_spawned, to_int_to_size_t.
Qed.

Lemma step_pool_inv env a s s' :
  pool_inv env s → step env a s = Some s' → pool_inv env s'.
Proof.
  intros Hinv Hstep. destruct a as [n c|n|t| |i|k|]; simpl in Hstep.
  - destruct (mutex_ s); [done|]. injection Hstep as <-.
    destruct (Register_fields n c s) as (_ & Hw & Hn & _).
    unfold pool_inv. by rewrite Hw, Hn.
  - destruct (mutex_ s); [done|]. by injection Hstep as <-.
  - unfold Push in Hstep. destruct (naive_engine_ s).
    { destruct (Push_naive t (rt s)); [|done]. by injection Hstep as <-. }
    destruct (mutex_ s); [done|]. simpl in Hstep.
    destruct (_ >? _); by injection Hstep as <-.
  - apply Push_grow_spawned in Hstep as [_ ->]; [|done].
    apply (spawned_state_pool_inv env); [done|].
    destruct Hinv as [_ Hbound].
    pose proof (to_int_range (Z.of_nat (length (workers_ s)) +
      to_int (Z.of_nat (length (q_ s)) - num_free_threads s))). lia.
  - unfold worker_step in Hstep.
    destruct (workers_ s !! i) as [pc|] eqn:Hpc; [|done]. simpl in Hstep.
    destruct Hinv as [Hfree Hbound].
    pose proof (idle_count_bounds (workers_ s)) as Hidle.
    assert (Hcs : takes_lock pc = true →
                  pool_inv env (critical_section i s)).
    { intros Hlock%takes_lock_idle. unfold critical_section, pool_inv.
      pose proof (idle_count_pos _ _ _ Hpc Hlock).
      destruct (q_ s) as [|fn q']; [destruct (destructing_ s)|]; simpl;
        rewrite length_insert, (idle_count_insert _ _ _ _ Hpc), Hlock; simpl;
        rewrite ?to_uint32_small by lia; lia. }
    destruct pc; try (destruct (mutex_ s); [done|];
      rewrite locked_critical_section in Hstep; injection Hstep as <-;
      by apply Hcs).
    + destruct (task_body fn (rt s)); [|done]. injection Hstep as <-.
      unfold pool_inv. simpl.
      rewrite length_insert, (idle_count_insert _ _ _ _ Hpc). simpl. lia.
    + injection Hstep as <-. unfold pool_inv. simpl.
      rewrite length_insert, (idle_count_insert _ _ _ _ Hpc). simpl.
      assert (idle_count (workers_ s) + 1 ≤ Z.of_nat (length (workers_ s))).
      { clear -Hpc. revert i Hpc. induction (workers_ s) as [|p ws IH];
          intros i Hi; [done|]. destruct i as [|i]; simpl in *.
        - injection Hi as ->. pose proof (idle_count_bounds ws). simpl. lia.
        - pose proof (IH i Hi). destruct (is_idle p); lia. }
      rewrite to_uint32_small by lia. lia.
    + done.
  - unfold engine_step in Hstep.
    destruct (engine (rt s) !! k); [|done]. simpl in Hstep.
    destruct (sync_closure _ _); [|done]. by injection Hstep as <-.
  - unfold destructor_step in Hstep. destruct (dtor s) as [|j|].
    + destruct (naive_engine_ s); [by injection Hstep as <-|].
      destruct (mutex_ s); [done|]. by injection Hstep as <-.
    + destruct (workers_ s !! j) as [[]|]; try done; by injection Hstep as <-.
    + done.
Qed.

Lemma reachable_pool_inv env s : reachable env s → pool_inv env s.
Proof.
  apply reachable_invariant.
  - intros w0. split; simpl; lia.
  - intros a s0 s1 _. apply step_pool_inv.
Qed.

(** ** From steps to transitions of the view *)

Lemma control_app l l' : control (l ++ l') = control l ++ control l'.
Proof. apply omap_app. Qed.

Lemma control_spawn a k : control (EvSpawn <$> seq a k) = EvSpawn <$> seq a k.
Proof.
  revert a. induction k as [|k IH]; intros a; [done|].
  simpl. unfold control in IH. by rewrite IH.
Qed.

Lemma naive_patch_from_control arrs0 tags0 output_tags0 outputs0 n i k r r' :
  naive_patch_from arrs0 tags0 output_tags0 outputs0 n i k r = Some r' →
  control (log r') = control (log r).
Proof.
  revert i k r. induction n as [|n IH]; intros i k r Hp; simpl in Hp.
  { by injection Hp as <-. }
  destruct (arrs0 !! i) as [a|]; [|done]. simpl in Hp.
  destruct (is_dense_or_undefined (storage_type a)); [by eapply IH|].
  destruct (tags0 !! i) as [tag|]; [|done]. simpl in Hp.
  destruct (bool_decide (tag ∈ output_tags0)); [|by eapply IH].
  destruct (outputs0 !! k) as [o|]; [|done]. simpl in Hp.
  apply IH in Hp. rewrite Hp. simpl. rewrite control_app. simpl.
  by rewrite app_nil_r.
Qed.

Lemma Push_naive_control t r r' :
  Push_naive t r = Some r' → control (log r') = control (log r).
Proof.
  unfold Push_naive, naive_patch. intros Hp.
  destruct (naive_patch_from _ _ _ _ _ _ _ _) as [r1|] eqn:Hr1; [|done].
  injection Hp as <-. apply naive_patch_from_control in Hr1.
  simpl in *. rewrite control_app, Hr1, control_app. simpl. by rewrite !app_nil_r.
Qed.

Lemma sync_closure_control t r r' :
  sync_closure t r = Some r' → control (log r') = control (log r).
Proof.
  unfold sync_closure, sync_patch. rewrite <- naive_sync_patch_from. intros Hp.
  destruct (naive_patch_from _ _ _ _ _ _ _ _) as [r1|] eqn:Hr1; [|done].
  injection Hp as <-. apply naive_patch_from_control in Hr1.
  simpl in *. rewrite control_app, Hr1. simpl. by rewrite app_nil_r.
Qed.

Lemma task_body_control t r r' :
  task_body t r = Some r' → control (log r') = control (log r).
Proof.
  unfold task_body. intros Hp.
  destruct (build_vars _ _ _) as [[vars vars2]|]; [|done].
  injection Hp as <-. simpl. rewrite !control_app. simpl. by rewrite !app_nil_r.
Qed.

Lemma step_trans env ord a s s' :
  pool_inv env s →
  step env a s = Some s' →
  (ord = true → is_push a = true → dtor s = NotStarted) →
  trans (max_threads env) ord (view s) (view s').
Proof.
  intros Hinv Hstep Hord. destruct a as [op c|op|t| |i|k|]; simpl in Hstep.
  - destruct (mutex_ s) eqn:Hm; [done|]. injection Hstep as <-.
    destruct s as [m rg ws n q nv d dt [w e l]]. unfold Register, view. simpl.
    destruct (rg !! op); simpl; [|apply trans_quiet].
    rewrite control_app. simpl. apply trans_warning.
  - destruct (mutex_ s); [done|]. injection Hstep as <-. apply trans_quiet.
  - unfold Push in Hstep. destruct (naive_engine_ s) eqn:Hnv.
    { destruct (Push_naive t (rt s)) as [r|] eqn:Hr; [|done].
      injection Hstep as <-. apply Push_naive_control in Hr.
      unfold view. simpl. rewrite Hr. apply trans_quiet. }
    destruct (mutex_ s) eqn:Hm; [done|]. simpl in Hstep.
    destruct s as [m rg ws n q nv d dt [w e l]].
    simpl in *. subst m nv.
    destruct (Z.of_nat (length (q ++ [t])) >? n) eqn:Hgt;
      injection Hstep as <-; unfold view; simpl; rewrite !control_app; simpl.
    + apply trans_enqueue_hold; [by auto|]. apply Z.gtb_lt in Hgt. lia.
    + rewrite <- app_assoc. simpl. apply trans_enqueue_notify; [by auto|].
      rewrite Z.gtb_ltb in Hgt. apply Z.ltb_ge in Hgt. lia.
  - apply Push_grow_spawned in Hstep as [Hm ->]; [|done].
    destruct s as [m rg ws n q nv d dt [w e l]]. simpl in Hm. subst m.
    unfold view. simpl. rewrite !control_app, control_spawn. simpl.
    rewrite <- app_assoc. by apply trans_grow.
  - unfold worker_step in Hstep.
    destruct (workers_ s !! i) as [pc|] eqn:Hpc; [|done]. simpl in Hstep.
    destruct Hinv as [Hfree Hbound].
    pose proof (idle_count_bounds (workers_ s)) as Hidle.
    assert (Hcs : takes_lock pc = true → mutex_ s = false →
                  trans (max_threads env) ord (view s)
                        (view (critical_section i s))).
    { intros Hlock Hm. pose proof (takes_lock_idle _ Hlock) as Hidl.
      pose proof (idle_count_pos _ _ _ Hpc Hidl).
      destruct s as [m rg ws n q nv d dt [w e l]]. simpl in *. subst m.
      unfold critical_section, view. simpl.
      destruct q as [|fn q']; [destruct d|]; simpl.
      - rewrite control_app. simpl. by eapply trans_exit.
      - by eapply trans_wait.
      - rewrite control_app, to_uint32_small by lia. simpl.
        by eapply trans_dequeue. }
    destruct pc; try (destruct (mutex_ s) eqn:Hm; [done|];
      rewrite locked_critical_section in Hstep; injection Hstep as <-;
      by apply Hcs).
    + destruct (task_body fn (rt s)) as [r|] eqn:Hr; [|done].
      injection Hstep as <-. apply task_body_control in Hr.
      destruct s as [m rg ws n q nv d dt [w e l]]. unfold view. simpl in *.
      rewrite control_app, Hr. simpl. by apply trans_done.
    + injection Hstep as <-.
      assert (idle_count (workers_ s) + 1 ≤ Z.of_nat (length (workers_ s))).
      { clear -Hpc. revert i Hpc. induction (workers_ s) as [|p ws IH];
          intros i Hi; [done|]. destruct i as [|i]; simpl in *.
        - injection Hi as ->. pose proof (idle_count_bounds ws). simpl. lia.
        - pose proof (IH i Hi). destruct (is_idle p); lia. }
      destruct s as [m rg ws n q nv d dt [w e l]]. unfold view. simpl in *.
      rewrite to_uint32_small by lia. by apply trans_incr.
    + done.
  - unfold engine_step in Hstep.
    destruct (engine (rt s) !! k) as [op|]; [|done]. simpl in Hstep.
    destruct (sync_closure _ _) as [r|] eqn:Hr; [|done]. injection Hstep as <-.
    apply sync_closure_control in Hr. unfold view. simpl in *. rewrite Hr.
    apply trans_quiet.
  - unfold destructor_step in Hstep.
    destruct s as [m rg ws n q nv d dt [w e l]]. unfold view. simpl in *.
    destruct dt as [|j|].
    + destruct nv; [injection Hstep as <-; apply trans_destroy_naive|].
      destruct m; [done|]. injection Hstep as <-. simpl.
      rewrite control_app. simpl. apply trans_destroy_start.
    + destruct (ws !! j) as [[]|] eqn:Hj; try done; injection Hstep as <-; simpl.
      * rewrite control_app. simpl. by apply trans_join.
      * by apply trans_destroy_end.
    + done.
Qed.

Lemma orderly_step_step env a s s' :
  orderly_step env a s = Some s' →
  step env a s = Some s' ∧ (is_push a = true → dtor s = NotStarted).
Proof.
  unfold orderly_step. destruct a; try (intros ->; by split).
  destruct (dtor s); [|done..]. intros ->. by split.
Qed.

Lemma orderly_invariant env (P : State → Prop) :
  (∀ w0, P (CustomOperator_new env w0)) →
  (∀ a s s', reachable env s → P s → orderly_step env a s = Some s' → P s') →
  ∀ s, orderly env s → P s.
Proof.
  intros Hinit Hstep s (w0 & acts & Hrun).
  assert (Hgen : ∀ acts s0 s1,
             reachable env s0 → P s0 → orderly_run env acts s0 = Some s1 → P s1).
  { clear -Hstep. intros acts. induction acts as [|a acts IH];
      intros s0 s1 Hr HP Hrun; simpl in Hrun.
    - by injection Hrun as <-.
    - destruct (orderly_step env a s0) as [s2|] eqn:Hs; [|done].
      eapply (IH s2); [|by eapply Hstep|done].
      apply orderly_step_step in Hs as [Hs _]. by eapply reachable_step. }
  eapply Hgen; [apply reachable_new|apply Hinit|exact Hrun].
Qed.

Lemma orderly_reachable env s : orderly env s → reachable env s.
Proof.
  apply orderly_invariant; [apply reachable_new|].
  intros a s0 s1 Hr _ [Hs _]%orderly_step_step. by eapply reachable_step.
Qed.

Lemma reachable_view_invariant env (P : View → Prop) :
  (∀ w0, P (view (CustomOperator_new env w0))) →
  (∀ v v', v_free v = idle_count (v_workers v) → P v →
           trans (max_threads env) false v v' → P v') →
  ∀ s, reachable env s → P (view s).
Proof.
  intros Hinit Htrans. apply (reachable_invariant env (λ s, P (view s))); [done|].
  intros a s s' Hr HP Hstep. apply reachable_pool_inv in Hr as Hpool.
  apply (Htrans (view s) (view s') (proj1 Hpool) HP).
  eapply step_trans; [done|exact Hstep|done].
Qed.

Lemma orderly_view_invariant env (P : View → Prop) :
  (∀ w0, P (view (CustomOperator_new env w0))) →
  (∀ v v', v_free v = idle_count (v_workers v) → P v →
           trans (max_threads env) true v v' → P v') →
  ∀ s, orderly env s → P (view s).
Proof.
  intros Hinit Htrans. apply (orderly_invariant env (λ s, P (view s))); [done|].
  intros a s s' Hr HP [Hstep Hpush]%orderly_step_step.
  apply reachable_pool_inv in Hr as Hpool.
  apply (Htrans (view s) (view s') (proj1 Hpool) HP).
  eapply step_trans; [done|exact Hstep|by intros _].
Qed.

(** ** Projections of the log *)

Lemma omap_control {B} (f : Event → option B) l :
  (∀ e, exec_event e = true → f e = None) → omap f (control l) = omap f l.
Proof.
  intros Hf. unfold control. induction l as [|e l IH]; [done|]. simpl.
  destruct (exec_event e) eqn:He; simpl.
  - rewrite (Hf e He). exact IH.
  - destruct (f e); [f_equal|]; exact IH.
Qed.

Lemma omap_spawn {B} (f : Event → option B) a k :
  (∀ i, f (EvSpawn i) = None) → omap f (EvSpawn <$> seq a k) = [].
Proof.
  intros Hf. revert a. induction k as [|k IH]; intros a; [done|].
  simpl. rewrite Hf. apply IH.
Qed.

Lemma enqueued_control l : enqueued (control l) = enqueued l.
Proof. apply omap_control. by intros []. Qed.
Lemma dequeued_control l : dequeued (control l) = dequeued l.
Proof. apply omap_control. by intros []. Qed.
Lemma dequeued_by_control i l : dequeued_by i (control l) = dequeued_by i l.
Proof. apply omap_control. by intros []. Qed.
Lemma completed_by_control i l : completed_by i (control l) = completed_by i l.
Proof. apply omap_control. by intros []. Qed.
Lemma joined_control l : joined (control l) = joined l.
Proof. apply omap_control. by intros []. Qed.

Ltac log_simpl :=
  unfold enqueued, dequeued, completed, dequeued_by, completed_by, joined in *;
  cbn [v_mutex v_workers v_free v_q v_naive v_destructing v_dtor v_log] in *;
  rewrite ?omap_app, ?omap_spawn by done;
  cbn [omap list_omap];
  rewrite ?app_nil_r in *.

(** ** Dequeue order *)

Lemma trans_fifo_inv cap ord v v' :
  fifo_inv v → trans cap ord v v' → fifo_inv v'.
Proof.
  unfold fifo_inv. intros Hinv Htrans.
  destruct Htrans; log_simpl; try done.
  - by rewrite Hinv, app_assoc.
  - by rewrite Hinv, app_assoc.
  - by rewrite Hinv, <- app_assoc.
Qed.

Lemma running_task_lock (ws : list WorkerPc) (i : nat) pc :
  ws !! i = Some pc → takes_lock pc = true → running_task (ws !! i) = [].
Proof. intros -> Hlock. by destruct pc. Qed.

Ltac split_index j i :=
  destruct (decide (j = i)) as [->|?];
  [ rewrite ?bool_decide_eq_true_2 by done;
    erewrite ?list_lookup_insert_eq by (by eapply lookup_lt_Some)
  | rewrite ?(bool_decide_eq_false_2 (i = j)) by congruence;
    rewrite ?list_lookup_insert_ne by congruence ].

Lemma trans_worker_inv cap ord v v' :
  worker_inv v → trans cap ord v v' → worker_inv v'.
Proof.
  unfold worker_inv. intros Hinv Htrans.
  destruct Htrans; intros j; specialize (Hinv j); log_simpl; try done.
  - (* grow *)
    rewrite Hinv. f_equal.
    destruct (decide (j < length ws)%nat) as [Hlt|Hge].
    + by rewrite lookup_app_l.
    + rewrite (lookup_ge_None_2 ws j) by lia.
      rewrite lookup_app_r by lia.
      destruct (replicate k AtEntry !! (j - length ws)%nat) as [pc'|] eqn:Hpc;
        [|done]. by apply lookup_replicate in Hpc as [-> _].
  - (* dequeue *)
    split_index j i; simpl; rewrite ?app_nil_r; [|done].
    rewrite Hinv. erewrite running_task_lock by done. by rewrite app_nil_r.
  - split_index j i; [|done]. by erewrite Hinv, running_task_lock.
  - split_index j i; [|done]. by erewrite Hinv, running_task_lock.
  - (* done *)
    split_index j i; simpl; rewrite ?app_nil_r; [|done].
    by rewrite Hinv, H.
  - split_index j i; [|done]. by rewrite Hinv, H.
Qed.

Lemma trans_index_inv cap ord v v' :
  index_inv v → trans cap ord v v' → index_inv v'.
Proof.
  unfold index_inv. intros Hinv Htrans.
  destruct Htrans; intros j Hj; specialize (Hinv j); log_simpl;
    rewrite ?length_insert, ?length_app in Hj; try (apply Hinv; lia).
  - apply lookup_lt_Some in H.
    rewrite (bool_decide_eq_false_2 (i = j)) by lia. simpl.
    rewrite app_nil_r. apply Hinv; lia.
  - apply lookup_lt_Some in H.
    rewrite (bool_decide_eq_false_2 (i = j)) by lia. simpl.
    rewrite app_nil_r. apply Hinv; lia.
Qed.

Lemma dequeued_single l :
  (∀ i, (1 ≤ i)%nat → dequeued_by i l = []) → dequeued l = dequeued_by 0 l.
Proof.
  unfold dequeued, dequeued_by. induction l as [|e l IH]; intros Hl; [done|].
  assert (Htl : ∀ i, (1 ≤ i)%nat →
    omap (λ e, match e with
               | EvDequeue j t => if bool_decide (j = i) then Some t else None
               | _ => None end) l = []).
  { intros i Hi. specialize (Hl i Hi). simpl in Hl.
    destruct e; try exact Hl. destruct (bool_decide _); [done|exact Hl]. }
  specialize (IH Htl). simpl.
  destruct e as [| | | | | | | |j t| | |]; try exact IH.
  destruct j as [|j].
  - rewrite bool_decide_eq_true_2 by done. f_equal. exact IH.
  - specialize (Hl (S j) ltac:(lia)). simpl in Hl.
    rewrite bool_decide_eq_true_2 in Hl by done. done.
Qed.

Lemma completed_single l :
  (∀ i, (1 ≤ i)%nat → completed_by i l = []) → completed l = completed_by 0 l.
Proof.
  unfold completed, completed_by. induction l as [|e l IH]; intros Hl; [done|].
  assert (Htl : ∀ i, (1 ≤ i)%nat →
    omap (λ e, match e with
               | EvDone j t => if bool_decide (j = i) then Some t else None
               | _ => None end) l = []).
  { intros i Hi. specialize (Hl i Hi). simpl in Hl.
    destruct e; try exact Hl. destruct (bool_decide _); [done|exact Hl]. }
  specialize (IH Htl). simpl.
  destruct e as [| | | | | | | | |j t| |]; try exact IH.
  destruct j as [|j].
  - rewrite bool_decide_eq_true_2 by done. f_equal. exact IH.
  - specialize (Hl (S j) ltac:(lia)). simpl in Hl.
    rewrite bool_decide_eq_true_2 in Hl by done. done.
Qed.

Lemma reachable_fifo_inv env s : reachable env s → fifo_inv (view s).
Proof.
  apply reachable_view_invariant; [done|]. intros v v' _. apply trans_fifo_inv.
Qed.

Lemma reachable_worker_inv env s : reachable env s → worker_inv (view s).
Proof.
  apply reachable_view_invariant; [done|]. intros v v' _. apply trans_worker_inv.
Qed.

Lemma reachable_index_inv env s : reachable env s → index_inv (view s).
Proof.
  apply reachable_view_invariant; [done|]. intros v v' _. apply trans_index_inv.
Qed.

(** C7 (dequeue order).  In every reachable state the tasks enqueued so far
    are the tasks dequeued so far, in the same order, followed by the queue.
    While the pool has at most one worker the tasks complete in that order
    too: the dequeued tasks are the completed ones followed by the one being
    run.  With two workers completion can overtake: on
    [overtaking_schedule], [task_1] is enqueued and dequeued before [task_2]
    and completes after it. *)
Theorem fifo_dequeue_order (env : Env) :
  (∀ s, reachable env s →
        enqueued (log (rt s)) = dequeued (log (rt s)) ++ q_ s) ∧
  (∀ s, reachable env s → (length (workers_ s) ≤ 1)%nat →
        dequeued (log (rt s)) =
        completed (log (rt s)) ++ running_task (workers_ s !! 0%nat)) ∧
  (∃ s, run default_env overtaking_schedule
          (CustomOperator_new default_env sample_world) = Some s ∧
        length (workers_ s) = 2%nat ∧
        enqueued (log (rt s)) = [task_1; task_2] ∧
        dequeued (log (rt s)) = [task_1; task_2] ∧
        completed (log (rt s)) = [task_2; task_1]).
Proof.
  split; [|split].
  - intros s Hs. pose proof (reachable_fifo_inv env s Hs) as Hfifo.
    unfold fifo_inv in Hfifo. simpl in Hfifo.
    by rewrite enqueued_control, dequeued_control in Hfifo.
  - intros s Hs Hone.
    pose proof (reachable_worker_inv env s Hs 0%nat) as Hw.
    pose proof (reachable_index_inv env s Hs) as Hidx.
    unfold index_inv in Hidx. simpl in Hw, Hidx.
    rewrite dequeued_by_control, completed_by_control in Hw.
    rewrite dequeued_single, completed_single; [exact Hw| |].
    + intros i Hi. destruct (Hidx i) as [_ Hc]; [lia|].
      by rewrite completed_by_control in Hc.
    + intros i Hi. destruct (Hidx i) as [Hd _]; [lia|].
      by rewrite dequeued_by_control in Hd.
  - eexists. split; [vm_compute; reflexivity|]. by vm_compute.
Qed.

Lemma fifo_dequeue_order_witness :
  ∃ s, run default_env [CallPush task_1; PushGrow; WorkerStep 0; CallPush task_2]
         (CustomOperator_new default_env sample_world) = Some s ∧
       enqueued (log (rt s)) = dequeued (log (rt s)) ++ q_ s.
Proof.
  eexists. split; [vm_compute; reflexivity|].
  apply (proj1 (fifo_dequeue_order default_env)).
  exists sample_world,
    [CallPush task_1; PushGrow; WorkerStep 0; CallPush task_2].
  vm_compute. reflexivity.
Defined.

(** ** The idle count and the pool size *)

Lemma busy_worker_bound (ws : list WorkerPc) (i : nat) pc :
  ws !! i = Some pc → is_idle pc = false →
  idle_count ws + 1 ≤ Z.of_nat (length ws).
Proof.
  revert i. induction ws as [|p ws IH]; intros i Hi Hbusy; [done|].
  destruct i as [|i]; simpl in *.
  - injection Hi as ->. rewrite Hbusy. pose proof (idle_count_bounds ws). lia.
  - pose proof (IH i Hi Hbusy). destruct (is_idle p); lia.
Qed.

(** C8 (idle-worker count).  In every reachable state [num_free_threads] is
    the number of workers that are not inside a task, so it lies between 0
    and the pool size.  Starting a worker adds one to it; a worker step that
    takes a task finds it positive and takes one off; the step after the
    task body adds one; no other worker step changes it. *)
Theorem idle_count_within_pool (env : Env) (s : State) :
  reachable env s →
  0 ≤ num_free_threads s ≤ Z.of_nat (length (workers_ s)) ∧
  num_free_threads s = idle_count (workers_ s) ∧
  (num_free_threads (spawn s) = num_free_threads s + 1 ∧
   workers_ (spawn s) = workers_ s ++ [AtEntry]) ∧
  (∀ i s' pc, step env (WorkerStep i) s = Some s' →
      workers_ s !! i = Some pc →
      match workers_ s' !! i with
      | Some (Running _) =>
          is_idle pc = true ∧ 1 ≤ num_free_threads s ∧
          num_free_threads s' = num_free_threads s - 1
      | _ =>
          match pc with
          | Finished => num_free_threads s' = num_free_threads s + 1
          | _ => num_free_threads s' = num_free_threads s
          end
      end).
Proof.
  intros Hs. destruct (reachable_pool_inv env s Hs) as [Hfree Hbound].
  pose proof (idle_count_bounds (workers_ s)) as Hidle.
  split; [lia|]. split; [done|]. split.
  { split; [|done]. unfold spawn. simpl. rewrite to_uint32_small; lia. }
  intros i s' pc Hstep Hpc. simpl in Hstep. unfold worker_step in Hstep.
  rewrite Hpc in Hstep. simpl in Hstep.
  apply lookup_lt_Some in Hpc as Hlt.
  assert (Hcs : takes_lock pc = true → mutex_ s = false →
                locked 4 OuterTest i s = Some s' →
                match workers_ s' !! i with
                | Some (Running _) =>
                    is_idle pc = true ∧ 1 ≤ num_free_threads s ∧
                    num_free_threads s' = num_free_threads s - 1
                | _ => num_free_threads s' = num_free_threads s
                end).
  { intros Hlock Hm. rewrite locked_critical_section. intros [= <-].
    pose proof (takes_lock_idle _ Hlock) as Hidl.
    pose proof (idle_count_pos _ _ _ Hpc Hidl).
    unfold critical_section.
    destruct (q_ s) as [|fn q']; [destruct (destructing_ s)|]; simpl;
      rewrite list_lookup_insert_eq by done; [done..|].
    rewrite to_uint32_small by lia. split; [done|]. lia. }
  destruct pc; simpl;
    try (destruct (mutex_ s) eqn:Hm; [done|];
         rewrite locked_critical_section in Hstep;
         rewrite <- (locked_critical_section OuterTest) in Hstep;
         specialize (Hcs eq_refl eq_refl Hstep);
         by destruct (workers_ s' !! i) as [[]|]).
  - destruct (task_body fn (rt s)); [|done]. injection Hstep as <-. simpl.
    by rewrite list_lookup_insert_eq.
  - injection Hstep as <-. simpl. rewrite list_lookup_insert_eq by done.
    pose proof (busy_worker_bound _ _ _ Hpc eq_refl).
    rewrite to_uint32_small; lia.
  - done.
Qed.

Lemma idle_count_within_pool_witness :
  ∃ s, run default_env overtaking_schedule
         (CustomOperator_new default_env sample_world) = Some s ∧
       0 ≤ num_free_threads s ≤ Z.of_nat (length (workers_ s)).
Proof.
  eexists. split; [vm_compute; reflexivity|].
  apply (idle_count_within_pool default_env).
  exists sample_world, overtaking_schedule. vm_compute. reflexivity.
Defined.

Lemma trans_workers_length cap ord v v' :
  trans cap ord v v' → (length (v_workers v) ≤ length (v_workers v'))%nat.
Proof.
  intros Htrans. destruct Htrans; simpl;
    rewrite ?length_insert, ?length_app; lia.
Qed.

(** C5 (pool size).  The cap is the environment setting, 16 when it is not
    set.  In every reachable state the pool holds at most the cap (no worker
    at all for a cap below zero); no step makes the pool smaller; growing by
    [delta] leaves the pool at the larger of its size and the sum of its
    size and [delta] clamped to the cap, the new workers being appended, and
    changes nothing when the clamped target is at or below the size. *)
Theorem pool_size_bounded_monotone (env : Env) :
  (MXNET_CUSTOM_OP_NUM_THREADS env = None → max_threads env = 16) ∧
  (∀ s, reachable env s →
        Z.of_nat (length (workers_ s)) ≤ Z.max 0 (max_threads env) ∧
        (0 ≤ max_threads env →
         Z.of_nat (length (workers_ s)) ≤ max_threads env)) ∧
  (∀ s a s', reachable env s → step env a s = Some s' →
             (length (workers_ s) ≤ length (workers_ s'))%nat) ∧
  (∀ s delta, reachable env s →
     - 2 ^ 31 ≤ Z.of_nat (length (workers_ s)) + delta < 2 ^ 31 →
     let size := Z.of_nat (length (workers_ s)) in
     let target := Z.min (max_threads env) (size + delta) in
     workers_ (CreateThreads env delta s) =
       workers_ s ++ replicate (Z.to_nat (target - size)) AtEntry ∧
     Z.of_nat (length (workers_ (CreateThreads env delta s))) =
       Z.max size target ∧
     (target ≤ size → CreateThreads env delta s = s)).
Proof.
  split; [|split; [|split]].
  - intros Hnone. unfold max_threads. by rewrite Hnone.
  - intros s [_ Hbound]%reachable_pool_inv. lia.
  - intros s a s' Hs Hstep.
    apply (trans_workers_length (max_threads env) false (view s) (view s')).
    eapply step_trans; [by apply reachable_pool_inv|exact Hstep|done].
  - intros s delta Hs Hrange size target.
    rewrite CreateThreads_spawned by (by apply reachable_pool_inv).
    rewrite to_int_small by done. fold size target. simpl.
    split; [done|]. split.
    + rewrite length_app, length_replicate. lia.
    + intros Hle. replace (Z.to_nat (target - size)) with 0%nat by lia.
      apply spawned_state_0.
Qed.

Lemma overtaken_state_reachable : reachable default_env overtaken_state.
Proof. exists sample_world, overtaking_schedule. vm_compute. reflexivity. Qed.

Lemma pool_size_bounded_monotone_witness :
  Z.of_nat (length (workers_ overtaken_state)) ≤ 16 ∧
  Z.of_nat (length (workers_ (CreateThreads default_env 20 overtaken_state))) = 16.
Proof.
  pose proof (pool_size_bounded_monotone default_env) as H.
  destruct H as [_ [Hcap [_ Hgrow]]].
  split.
  - apply (Hcap overtaken_state overtaken_state_reachable).
    vm_compute. discriminate.
  - destruct (Hgrow overtaken_state 20 overtaken_state_reachable) as (_ & Hlen & _).
    + vm_compute. split; [discriminate|reflexivity].
    + rewrite Hlen. vm_compute. reflexivity.
Defined.

(** ** Shutdown *)

Lemma joined_app l l' : joined (l ++ l') = joined l ++ joined l'.
Proof. apply omap_app. Qed.

Lemma joined_spawn a k : joined (EvSpawn <$> seq a k) = [].
Proof. by apply omap_spawn. Qed.

Ltac joined_simpl :=
  cbn [v_mutex v_workers v_free v_q v_naive v_destructing v_dtor v_log] in *;
  rewrite ?joined_app, ?joined_spawn;
  change (joined [EvNotifyAll]) with (@nil nat);
  repeat match goal with
  | |- context [joined [?e]] =>
      let r := eval cbv in (joined [e]) in change (joined [e]) with r
  end;
  rewrite ?app_nil_r.

Lemma lookup_insert_Exited_inv (ws : list WorkerPc) (i j : nat) pc' :
  <[i := pc']> ws !! j = Some Exited → pc' ≠ Exited → ws !! j = Some Exited.
Proof.
  intros Hj Hpc'. destruct (decide (j = i)) as [->|Hne].
  - apply list_lookup_insert_Some in Hj as [(_ & ? & _)|[? _]]; congruence.
  - by rewrite list_lookup_insert_ne in Hj.
Qed.

Lemma lookup_insert_Exited (ws : list WorkerPc) (i j : nat) pc pc' :
  ws !! i = Some pc → pc ≠ Exited →
  ws !! j = Some Exited → <[i := pc']> ws !! j = Some Exited.
Proof.
  intros Hi Hpc Hj. destruct (decide (j = i)) as [->|Hne]; [congruence|].
  by rewrite list_lookup_insert_ne.
Qed.

Lemma takes_lock_not_Exited pc : takes_lock pc = true → pc ≠ Exited.
Proof. by destruct pc. Qed.

Lemma trans_shutdown_inv cap v v' :
  shutdown_inv v → trans cap true v v' → shutdown_inv v'.
Proof.
  unfold shutdown_inv. intros (S1 & S2 & S3 & S4) Htrans.
  destruct Htrans; joined_simpl.
  - done.
  - done.
  - (* enqueue, lock kept *)
    specialize (H eq_refl); subst dt. destruct d; [by destruct (S1 eq_refl)|].
    split; [done|]. split; [done|]. split; [|done].
    intros i Hi. by destruct (S3 i Hi).
  - specialize (H eq_refl); subst dt. destruct d; [by destruct (S1 eq_refl)|].
    split; [done|]. split; [done|]. split; [|done].
    intros i Hi. by destruct (S3 i Hi).
  - (* grow: the lock is held, so the destructor is not under way *)
    assert (Hex : ∀ i, (ws ++ replicate k AtEntry) !! i = Some Exited →
                       ws !! i = Some Exited).
    { intros i Hi. apply lookup_app_Some in Hi as [Hi|[_ Hi]]; [done|].
      by apply lookup_replicate in Hi as [? _]. }
    split; [done|]. split.
    { intros Hdt Hnv. by destruct (S2 Hdt Hnv). }
    split; [intros i Hi; by apply (S3 i), Hex|].
    destruct dt as [|j|]; [done| |].
    + destruct S4 as (Hnv & _). by destruct (S2 ltac:(done) Hnv).
    + destruct nv; [split; [apply S4|done]|]. by destruct (S2 ltac:(done) eq_refl).
  - (* dequeue: the queue is not empty, so no worker has returned *)
    pose proof (takes_lock_not_Exited _ H0) as Hpc.
    assert (Hno : ∀ j, ws !! j = Some Exited → False).
    { intros j Hj. by destruct (S3 j Hj). }
    assert (Hno' : ∀ j, <[i:=Running fn]> ws !! j = Some Exited → False).
    { intros j Hj. apply (Hno j). by eapply lookup_insert_Exited_inv. }
    split; [done|]. split; [done|].
    split; [intros j Hj; by destruct (Hno' j Hj)|].
    destruct dt as [|j|]; [done| |].
    + destruct S4 as (Hnv & Hj & Hle & Hall). rewrite length_insert.
      split; [done|]. split; [done|]. split; [done|].
      intros j' Hj'. by destruct (Hno j' (Hall j' Hj')).
    + destruct S4 as (Hj & Hall). rewrite length_insert. split; [done|].
      intros Hnv j pc' Hpc'. by specialize (Hall Hnv i pc H).
  - (* wait *)
    pose proof (takes_lock_not_Exited _ H0) as Hpc.
    assert (Hex : ∀ j, ws !! j = Some Exited → <[i:=AtWait]> ws !! j = Some Exited).
    { intros j. by eapply lookup_insert_Exited. }
    split; [done|]. split; [done|].
    split; [intros j Hj; by eapply (S3 j), lookup_insert_Exited_inv|].
    destruct dt as [|j|]; [done| |].
    + destruct S4 as (Hnv & Hj & Hle & Hall). rewrite length_insert.
      split; [done|]. split; [done|]. split; [done|].
      intros j' Hj'. by apply Hex, Hall.
    + destruct S4 as (Hj & Hall). rewrite length_insert. split; [done|].
      intros Hnv j pc' Hpc'. by specialize (Hall Hnv i pc H).
  - (* exit *)
    apply lookup_lt_Some in H as Hlt.
    assert (Hex : ∀ j, ws !! j = Some Exited → <[i:=Exited]> ws !! j = Some Exited).
    { intros j Hj. destruct (decide (j = i)) as [->|Hne].
      - by rewrite list_lookup_insert_eq.
      - by rewrite list_lookup_insert_ne. }
    split; [done|]. split; [done|]. split; [done|].
    destruct dt as [|j|]; [done| |].
    + destruct S4 as (Hnv & Hj & Hle & Hall). rewrite length_insert.
      split; [done|]. split; [done|]. split; [done|].
      intros j' Hj'. by apply Hex, Hall.
    + destruct S4 as (Hj & Hall). rewrite length_insert. split; [done|].
      intros Hnv j pc' Hpc'.
      pose proof (takes_lock_not_Exited _ H0). by specialize (Hall Hnv i pc H).
  - (* done *)
    assert (Hex : ∀ j, ws !! j = Some Exited → <[i:=Finished]> ws !! j = Some Exited).
    { intros j. by eapply lookup_insert_Exited. }
    split; [done|]. split; [done|].
    split; [intros j Hj; by eapply (S3 j), lookup_insert_Exited_inv|].
    destruct dt as [|j|]; [done| |].
    + destruct S4 as (Hnv & Hj & Hle & Hall). rewrite length_insert.
      split; [done|]. split; [done|]. split; [done|].
      intros j' Hj'. by apply Hex, Hall.
    + destruct S4 as (Hj & Hall). rewrite length_insert. split; [done|].
      intros Hnv j pc' Hpc'. by specialize (Hall Hnv i _ H).
  - (* incr *)
    assert (Hex : ∀ j, ws !! j = Some Exited → <[i:=AtRelock]> ws !! j = Some Exited).
    { intros j. by eapply lookup_insert_Exited. }
    split; [done|]. split; [done|].
    split; [intros j Hj; by eapply (S3 j), lookup_insert_Exited_inv|].
    destruct dt as [|j|]; [done| |].
    + destruct S4 as (Hnv & Hj & Hle & Hall). rewrite length_insert.
      split; [done|]. split; [done|]. split; [done|].
      intros j' Hj'. by apply Hex, Hall.
    + destruct S4 as (Hj & Hall). rewrite length_insert. split; [done|].
      intros Hnv j pc' Hpc'. by specialize (Hall Hnv i _ H).
  - (* destructor, naive *)
    destruct d; [by destruct (S1 eq_refl)|]. done.
  - (* destructor entered *)
    split; [done|]. split; [done|]. split.
    { intros i Hi. destruct (S3 i Hi) as [Hd _]. by destruct (S1 Hd). }
    split; [done|]. split; [done|]. split; [simpl; lia|]. intros i Hi. lia.
  - (* join *)
    destruct S4 as (Hnv & Hj & Hle & Hall). apply lookup_lt_Some in H as Hlt.
    split; [done|]. split; [intros _; by apply S2|]. split; [done|].
    split; [done|]. split; [by rewrite Hj, seq_S|]. split; [lia|].
    intros i Hi. destruct (decide (i = k)) as [->|Hne]; [done|]. apply Hall. lia.
  - (* the join loop ends *)
    destruct S4 as (Hnv & Hj & Hle & Hall). apply lookup_ge_None in H.
    assert (k = length ws) as -> by lia.
    split; [done|]. split; [intros _; by apply S2|]. split; [done|].
    rewrite Hnv. split; [done|]. intros _ i pc Hi.
    rewrite Hall in Hi; [congruence|]. by eapply lookup_lt_Some.
Qed.

Lemma insert_nil_inv (ws : list WorkerPc) (i : nat) pc pc' :
  ws !! i = Some pc → <[i := pc']> ws ≠ [].
Proof. intros Hi Hnil. destruct ws; [done|]. by destruct i. Qed.

Lemma trans_first_worker_inv cap ord v v' :
  v_free v = idle_count (v_workers v) →
  first_worker_inv cap v → trans cap ord v v' → first_worker_inv cap v'.
Proof.
  unfold first_worker_inv. intros Hfree J Htrans Hcap Hws.
  destruct Htrans; cbn in *;
    try (by apply J);
    try (by destruct (insert_nil_inv _ _ _ _ ltac:(eassumption) Hws)).
  - subst ws. destruct (J Hcap eq_refl) as [->|[? _]]; [|done]. by right.
  - subst ws. simpl in Hfree. subst n. rewrite length_app in H0. simpl in H0. lia.
  - apply app_eq_nil in Hws as [-> Hk]. simpl in Hfree. subst n.
    destruct (J Hcap eq_refl) as [->|[_ Hq]]; [by left|].
    rewrite Hq in H. change (Z.of_nat (length [])) with 0 in H.
    rewrite (to_int_small (Z.of_nat 1 - 0)) in H by lia.
    rewrite to_int_small in H by lia.
    destruct k; [lia|done].
Qed.

Lemma trans_naive_inv cap ord v v' : naive_inv v → trans cap ord v v' → naive_inv v'.
Proof.
  unfold naive_inv. intros N Htrans Hnv.
  destruct Htrans; joined_simpl; try done; try (by apply N);
    try (destruct (N Hnv) as (-> & _); done).
  - by destruct (N Hnv) as (_ & _ & ? & _).
Qed.

Lemma orderly_shutdown_inv env s : orderly env s → shutdown_inv (view s).
Proof.
  apply orderly_view_invariant.
  - intros w0. unfold shutdown_inv. simpl. split; [done|]. split; [done|].
    split; [|done]. intros i Hi. by rewrite lookup_nil in Hi.
  - intros v v' _. apply trans_shutdown_inv.
Qed.

Lemma reachable_first_worker_inv env s :
  reachable env s → first_worker_inv (max_threads env) (view s).
Proof.
  apply reachable_view_invariant.
  - intros w0 _ _. by left.
  - intros v v'. apply trans_first_worker_inv.
Qed.

Lemma reachable_naive_inv env s : reachable env s → naive_inv (view s).
Proof.
  apply reachable_view_invariant; [done|]. intros v v' _. apply trans_naive_inv.
Qed.

(** C10 (shutdown).  A worker that enters its critical section with a task
    in the queue takes it, whether or not the shutdown flag is set, and a
    worker only returns from a critical section in which the queue is empty
    and the flag is set.  So in pooled mode, when no task is submitted after
    the destructor was entered: once a worker has returned the queue is
    empty, every task enqueued has been dequeued, and that worker has
    completed every task it dequeued; when the destructor is done every
    worker has returned and has been joined once, in order, and for a cap of
    at least one the queue is empty.  In naive mode the destructor returns in
    one step that changes nothing else, and there are no workers, no queued
    tasks and no joins in any reachable state. *)
Theorem shutdown_drains_queue (env : Env) :
  (∀ s i pc fn q',
      workers_ s !! i = Some pc → takes_lock pc = true →
      mutex_ s = false → q_ s = fn :: q' →
      ∃ s', step env (WorkerStep i) s = Some s' ∧
            workers_ s' !! i = Some (Running fn) ∧ q_ s' = q' ∧
            destructing_ s' = destructing_ s) ∧
  (∀ s i s',
      step env (WorkerStep i) s = Some s' →
      workers_ s' !! i = Some Exited →
      q_ s = [] ∧ destructing_ s = true) ∧
  (∀ s, orderly env s → naive_engine_ s = false →
      (∀ i, workers_ s !! i = Some Exited →
            q_ s = [] ∧
            enqueued (log (rt s)) = dequeued (log (rt s)) ∧
            dequeued_by i (log (rt s)) = completed_by i (log (rt s))) ∧
      (dtor s = Destroyed →
         (∀ i pc, workers_ s !! i = Some pc → pc = Exited) ∧
         joined (log (rt s)) = seq 0 (length (workers_ s)) ∧
         (1 ≤ max_threads env →
          q_ s = [] ∧ enqueued (log (rt s)) = dequeued (log (rt s))))) ∧
  (∀ s, naive_engine_ s = true → dtor s = NotStarted →
      step env Destruct s = Some (set_dtor Destroyed s)) ∧
  (∀ s, reachable env s → naive_engine_ s = true →
      workers_ s = [] ∧ q_ s = [] ∧ destructing_ s = false ∧
      joined (log (rt s)) = []).
Proof.
  split; [|split; [|split; [|split]]].
  - intros s i pc fn q' Hpc Hlock Hm Hq.
    exists (critical_section i s). apply lookup_lt_Some in Hpc as Hlt. split.
    { simpl. unfold worker_step. rewrite Hpc. simpl.
      destruct pc; try done; rewrite Hm; apply locked_critical_section. }
    unfold critical_section. rewrite Hq. simpl.
    by rewrite list_lookup_insert_eq.
  - intros s i s' Hstep Hex. simpl in Hstep. unfold worker_step in Hstep.
    destruct (workers_ s !! i) as [pc|] eqn:Hpc; [|done]. simpl in Hstep.
    apply lookup_lt_Some in Hpc as Hlt.
    assert (Hcs : workers_ (critical_section i s) !! i = Some Exited →
                  q_ s = [] ∧ destructing_ s = true).
    { unfold critical_section.
      destruct (q_ s) as [|fn q']; [destruct (destructing_ s)|]; simpl;
        rewrite list_lookup_insert_eq by done; by intros [=]. }
    destruct pc; try (destruct (mutex_ s); [done|];
      rewrite locked_critical_section in Hstep; injection Hstep as <-;
      by apply Hcs).
    + destruct (task_body fn (rt s)); [|done]. injection Hstep as <-.
      simpl in Hex. by rewrite list_lookup_insert_eq in Hex.
    + injection Hstep as <-.
      simpl in Hex. by rewrite list_lookup_insert_eq in Hex.
    + done.
  - intros s Hs Hnv.
    pose proof (orderly_shutdown_inv env s Hs) as (S1 & S2 & S3 & S4).
    apply orderly_reachable in Hs as Hr.
    pose proof (reachable_fifo_inv env s Hr) as Hfifo.
    pose proof (reachable_worker_inv env s Hr) as Hworker.
    pose proof (reachable_first_worker_inv env s Hr) as Hfirst.
    unfold fifo_inv, worker_inv, first_worker_inv in *. simpl in *.
    rewrite enqueued_control, dequeued_control in Hfifo.
    assert (Hdrained : q_ s = [] →
              enqueued (log (rt s)) = dequeued (log (rt s))).
    { intros Hq. by rewrite Hfifo, Hq, app_nil_r. }
    split.
    + intros i Hi. destruct (S3 i Hi) as [_ Hq]. split; [done|].
      split; [by apply Hdrained|].
      specialize (Hworker i).
      rewrite dequeued_by_control, completed_by_control, Hi in Hworker.
      simpl in Hworker. by rewrite app_nil_r in Hworker.
    + intros Hdt. rewrite Hdt in S2, S4. rewrite Hnv in S4.
      destruct S4 as [Hj Hall]. rewrite joined_control in Hj.
      split; [by apply Hall|]. split; [done|]. intros Hcap.
      assert (Hq : q_ s = []).
      { destruct (workers_ s) as [|pc ws] eqn:Hws.
        - destruct (Hfirst Hcap eq_refl) as [?|[Hm _]]; [done|].
          destruct (S2 ltac:(done) Hnv) as [Hm' _]. congruence.
        - rewrite (Hall eq_refl 0%nat pc eq_refl) in S3.
          by destruct (S3 0%nat eq_refl). }
      split; [done|by apply Hdrained].
  - intros s Hnv Hdt. simpl. unfold destructor_step. by rewrite Hdt, Hnv.
  - intros s Hr Hnv.
    destruct (reachable_naive_inv env s Hr Hnv) as (Hw & Hq & _ & Hd & Hj).
    simpl in *. by rewrite joined_control in Hj.
Qed.

Lemma shutdown_state_orderly : orderly default_env shutdown_state.
Proof. exists sample_world, shutdown_schedule. vm_compute. reflexivity. Qed.

Lemma shutdown_drains_queue_witness :
  q_ shutdown_state = [] ∧
  joined (log (rt shutdown_state)) = [0; 1]%nat ∧
  completed_by 0 (log (rt shutdown_state)) = [task_1; task_2].
Proof.
  pose proof (shutdown_drains_queue default_env) as H.
  destruct H as (_ & _ & Hpool & _).
  destruct (Hpool shutdown_state shutdown_state_orderly eq_refl) as [Hex Hdone].
  destruct (Hex 0%nat eq_refl) as (Hq & _ & Hby).
  destruct (Hdone eq_refl) as (_ & Hj & _).
  split; [exact Hq|]. split; [exact Hj|].
  rewrite <- Hby. vm_compute. reflexivity.
Defined.

(** ** Growth on [Push] *)

Lemma busy_state_reachable : reachable default_env busy_state.
Proof.
  exists sample_world, [CallPush task_1; PushGrow; WorkerStep 0].
  vm_compute. reflexivity.
Qed.

(** C6, as stated, fails.  In [busy_state] the only worker is running
    [task_1] and the queue is empty.  [Push] of [task_2] makes two pending
    or running tasks against no idle worker, so the stated rule asks for two
    new workers; the code compares the queue length, one, with the idle
    count and starts one. *)
Lemma pending_plus_running_growth_fails :
  reachable default_env busy_state ∧
  ¬ grows_by_pending_plus_running default_env busy_state task_2.
Proof.
  split; [apply busy_state_reachable|].
  intros Hclaim.
  set (s1 := default busy_state (step default_env (CallPush task_2) busy_state)).
  set (s2 := default s1 (step default_env PushGrow s1)).
  specialize (Hclaim s1 s2).
  assert (H1 : step default_env (CallPush task_2) busy_state = Some s1)
    by (vm_compute; reflexivity).
  assert (H2 : (if mutex_ s1 then step default_env PushGrow s1 else Some s1) =
               Some s2) by (vm_compute; reflexivity).
  specialize (Hclaim H1 H2). vm_compute in Hclaim. discriminate Hclaim.
Qed.

(** C6, amended.  In pooled mode [Push] appends the task to the queue and
    compares the queue length with the idle count.  When the queue is not
    longer, the pool is left as it is and [notify_all] is called.  When it is
    longer, the caller keeps the lock and goes on to grow the pool: with the
    queue length and the idle count as they are at that point, the pool
    becomes the larger of its size and of its size plus their difference
    clamped to the cap, the new workers are appended, and [notify_all] is
    called last, before the lock is released. *)
Theorem push_grows_by_queue_deficit (env : Env) :
  (∀ s t, reachable env s → naive_engine_ s = false → mutex_ s = false →
     ∃ s1, step env (CallPush t) s = Some s1 ∧
           q_ s1 = q_ s ++ [t] ∧ workers_ s1 = workers_ s ∧
           num_free_threads s1 = num_free_threads s ∧
           if Z.of_nat (length (q_ s1)) >? num_free_threads s
           then mutex_ s1 = true ∧ log (rt s1) = log (rt s) ++ [EvEnqueue t]
           else mutex_ s1 = false ∧
                log (rt s1) = log (rt s) ++ [EvEnqueue t; EvNotifyAll]) ∧
  (∀ s1, reachable env s1 → mutex_ s1 = true →
     let size := Z.of_nat (length (workers_ s1)) in
     let deficit := Z.of_nat (length (q_ s1)) - num_free_threads s1 in
     size + Z.of_nat (length (q_ s1)) < 2 ^ 31 →
     ∃ s2 k, step env PushGrow s1 = Some s2 ∧
             workers_ s2 = workers_ s1 ++ replicate k AtEntry ∧
             Z.of_nat (length (workers_ s2)) =
               Z.max size (Z.min (max_threads env) (size + deficit)) ∧
             num_free_threads s2 = num_free_threads s1 + Z.of_nat k ∧
             q_ s2 = q_ s1 ∧ mutex_ s2 = false ∧
             log (rt s2) =
               log (rt s1) ++ (EvSpawn <$> seq (length (workers_ s1)) k) ++
               [EvNotifyAll]).
Proof.
  split.
  - intros s t Hs Hnv Hm. simpl. unfold Push. rewrite Hnv, Hm. simpl.
    destruct (_ >? _) eqn:Hgt; eexists; (split; [reflexivity|]); simpl;
      rewrite Hgt; simpl; rewrite <- ?app_assoc; done.
  - intros s1 Hs Hm size deficit Hrange.
    pose proof (reachable_pool_inv env s1 Hs) as Hinv.
    destruct Hinv as [Hfree Hbound].
    pose proof (idle_count_bounds (workers_ s1)) as Hidle.
    destruct (Push_grow env s1) as [s2|] eqn:Hgrow;
      [|by unfold Push_grow in Hgrow; rewrite Hm in Hgrow].
    pose proof Hgrow as Hs2.
    apply Push_grow_spawned in Hs2 as [_ Hs2]; [|done].
    rewrite (to_int_small (_ - _)) in Hs2 by lia. fold size deficit in Hs2.
    rewrite to_int_small in Hs2 by lia.
    exists s2, (Z.to_nat (Z.min (max_threads env) (size + deficit) - size)).
    split; [exact Hgrow|]. rewrite Hs2. simpl.
    split; [done|]. split; [|by rewrite <- app_assoc].
    rewrite length_app, length_replicate. fold size. lia.
Qed.

Lemma push_grows_by_queue_deficit_witness :
  ∃ s1, step default_env (CallPush task_2) busy_state = Some s1 ∧
        q_ s1 = [task_2] ∧ mutex_ s1 = true.
Proof.
  pose proof (push_grows_by_queue_deficit default_env) as H.
  destruct H as [Hpush _].
  destruct (Hpush busy_state task_2 busy_state_reachable eq_refl eq_refl)
    as (s1 & Hstep & Hq & _ & _ & Hif).
  exists s1. split; [exact Hstep|]. split; [exact Hq|].
  rewrite Hq in Hif. exact (proj1 Hif).
Defined.

(** * Further properties of the dispatcher *)

(** * Further properties *)

(** ** Construction *)

Lemma trans_naive_fixed cap ord v v' : trans cap ord v v' → v_naive v' = v_naive v.
Proof. intros Htrans. by destruct Htrans. Qed.

(** X1 (engine mode).  The mode is decided once, by the constructor: the
    object is in naive mode exactly when the engine-type setting is the
    string "NaiveEngine", and no step changes it. *)
Theorem engine_mode_fixed (env : Env) (s : State) :
  reachable env s →
  naive_engine_ s = bool_decide (MXNET_ENGINE_TYPE env = Some "NaiveEngine").
Proof.
  intros Hs.
  apply (reachable_view_invariant env
           (λ v, v_naive v =
                 bool_decide (MXNET_ENGINE_TYPE env = Some "NaiveEngine")));
    [|by intros v v' _ <- ?%trans_naive_fixed|exact Hs].
  intros w0. simpl. destruct (MXNET_ENGINE_TYPE env) as [str|]; simpl.
  - repeat case_bool_decide; congruence.
  - by repeat case_bool_decide.
Qed.

Lemma engine_mode_fixed_witness : naive_engine_ overtaken_state = false.
Proof.
  rewrite (engine_mode_fixed default_env overtaken_state overtaken_state_reachable).
  reflexivity.
Defined.

(** ** The registry under interleaving *)







(** X3 (a null creator).  [Register] accepts the null creator.  [Find] then
    answers [nullptr], as it does for a name that was never registered, so
    the two cannot be told apart through [Find]; but the name is present: the
    next [Register] of it logs the overwrite warning, which it does not for a
    name that is absent. *)
Theorem null_creator_is_registered (name : string) (s : State) :
  Find name (Register name nullptr s) = nullptr ∧
  (registry_ s !! name = None →
   Find name s = nullptr ∧
   ∀ c, warnings (log (rt (Register name c s))) = warnings (log (rt s))) ∧
  (∀ c, warnings (log (rt (Register name c (Register name nullptr s)))) =
        warnings (log (rt (Register name nullptr s))) ++ [name]).
Proof.
  split; [|split].
  - rewrite Find_Register. by rewrite bool_decide_eq_true_2.
  - intros Hnone. split; [unfold Find; by rewrite Hnone|].
    intros c. rewrite Register_warnings.
    rewrite bool_decide_eq_false_2; [by rewrite app_nil_r|].
    by apply not_elem_of_dom.
  - intros c. rewrite Register_warnings, Register_dom.
    rewrite bool_decide_eq_true_2; [done|]. set_solver.
Qed.

Lemma null_creator_is_registered_witness :
  Find "A" (CustomOperator_new default_env sample_world) = nullptr ∧
  warnings (log (rt (Register "A" 5
    (CustomOperator_new default_env sample_world)))) = [].
Proof.
  destruct (null_creator_is_registered "A"
              (CustomOperator_new default_env sample_world)) as (_ & Hmiss & _).
  destruct (Hmiss eq_refl) as [Hfind Hwarn].
  split; [exact Hfind|]. rewrite Hwarn. reflexivity.
Defined.


(** ** The reconciliation pass at its bounds *)

Section PatchBounds.
Variables (arrs0 : list NDArray) (tags0 : list Z)
          (output_tags0 : gset Z) (outputs0 : list NDArray).

Lemma naive_patch_from_defined_1 rest i k r :
  drop i arrs0 = rest →
  (∀ j a, rest !! j = Some a → is_sparse a → is_Some (tags0 !! (i + j)%nat)) →
  (k + length (qualifying_from tags0 output_tags0 i rest) ≤ length outputs0)%nat →
  naive_patch_from arrs0 tags0 output_tags0 outputs0 (length rest) i k r =
  Some (rebind_all (drop k outputs0)
          (qualifying_from tags0 output_tags0 i rest) k r).
Proof.
  revert i k r. induction rest as [|a rest IH]; intros i k r Hdrop Htags Hout.
  { simpl. by destruct (drop k outputs0). }
  assert (Ha : arrs0 !! i = Some a).
  { rewrite <- (Nat.add_0_r i), <- lookup_drop, Hdrop. done. }
  assert (Hrest : drop (S i) arrs0 = rest).
  { rewrite (drop_S _ _ _ Ha) in Hdrop. by injection Hdrop. }
  assert (Htags' : ∀ j b, rest !! j = Some b → is_sparse b →
                          is_Some (tags0 !! (S i + j)%nat)).
  { intros j b Hj Hb. replace (S i + j)%nat with (i + S j)%nat by lia.
    by apply (Htags (S j) b). }
  simpl in *. rewrite Ha. simpl. unfold qualifies in *.
  destruct (is_dense_or_undefined (storage_type a)) eqn:Hdense; simpl in *.
  { by apply IH. }
  destruct (Htags 0%nat a eq_refl Hdense) as [tag Htag].
  rewrite Nat.add_0_r in Htag. rewrite Htag in *. simpl.
  destruct (bool_decide (tag ∈ output_tags0)); simpl in *; [|by apply IH].
  destruct (lookup_lt_is_Some_2 outputs0 k) as [o Ho]; [lia|].
  rewrite Ho. simpl. rewrite (drop_S _ _ _ Ho). simpl.
  apply IH; [done|done|lia].
Qed.

Lemma naive_patch_from_defined_2 rest i k r :
  drop i arrs0 = rest →
  (k ≤ length outputs0)%nat →
  is_Some (naive_patch_from arrs0 tags0 output_tags0 outputs0 (length rest) i k r) →
  (∀ j a, rest !! j = Some a → is_sparse a → is_Some (tags0 !! (i + j)%nat)) ∧
  (k + length (qualifying_from tags0 output_tags0 i rest) ≤ length outputs0)%nat.
Proof.
  revert i k r. induction rest as [|a rest IH]; intros i k r Hdrop Hk Hsome.
  { split; [by intros j a ?|simpl; lia]. }
  assert (Ha : arrs0 !! i = Some a).
  { rewrite <- (Nat.add_0_r i), <- lookup_drop, Hdrop. done. }
  assert (Hrest : drop (S i) arrs0 = rest).
  { rewrite (drop_S _ _ _ Ha) in Hdrop. by injection Hdrop. }
  assert (Hshift : ∀ k' r',
    is_Some (naive_patch_from arrs0 tags0 output_tags0 outputs0
               (length rest) (S i) k' r') → (k' ≤ length outputs0)%nat →
    is_Some (tags0 !! i) ∨ ¬ is_sparse a →
    (∀ j b, (a :: rest) !! j = Some b → is_sparse b →
            is_Some (tags0 !! (i + j)%nat)) ∧
    (k' + length (qualifying_from tags0 output_tags0 (S i) rest) ≤
     length outputs0)%nat).
  { intros k' r' Hs Hk' Hhead. destruct (IH (S i) k' r' Hrest Hk' Hs) as [Ht Hl].
    split; [|done]. intros [|j] b Hj Hb; simpl in Hj.
    - injection Hj as <-. rewrite Nat.add_0_r. by destruct Hhead.
    - replace (i + S j)%nat with (S i + j)%nat by lia. by apply (Ht j b). }
  simpl in Hsome |- *. rewrite Ha in Hsome. simpl in Hsome. unfold qualifies.
  destruct (is_dense_or_undefined (storage_type a)) eqn:Hdense; simpl.
  { apply (Hshift k r Hsome Hk). right. unfold is_sparse. congruence. }
  destruct (tags0 !! i) as [tag|] eqn:Htag; [|by destruct Hsome].
  simpl in Hsome.
  destruct (bool_decide (tag ∈ output_tags0)); simpl.
  - destruct (outputs0 !! k) as [o|] eqn:Ho; [|by destruct Hsome].
    simpl in Hsome. apply lookup_lt_Some in Ho.
    destruct (Hshift (S k) _ Hsome ltac:(lia) ltac:(by left)) as [Ht Hl].
    split; [done|lia].
  - apply (Hshift k r Hsome Hk). by left.
Qed.
End PatchBounds.

(** X4 (when the reconciliation pass is defined).  The pass reads [tags]
    only at the positions of entries that are neither dense nor undefined,
    and [outputs] only once per qualifying entry.  So it is defined exactly
    when each such entry has a tag and [outputs] has at least as many entries
    as there are qualifying ones; [tags] and [arrs] need not be of equal
    length.  When defined it rebinds the leading outputs, one per qualifying
    entry, and leaves any further output alone.  The loop of the naive path
    and the one handed to the downstream engine agree on all of this. *)
Theorem reconciliation_defined_iff (t : Task) (r : Runtime) :
  (is_Some (naive_patch (arrs t) (tags t) (output_tags t) (outputs t) r) ↔
   (∀ i a, arrs t !! i = Some a → is_sparse a → is_Some (tags t !! i)) ∧
   (length (qualifying t) ≤ length (outputs t))%nat) ∧
  (∀ r', naive_patch (arrs t) (tags t) (output_tags t) (outputs t) r = Some r' →
         r' = rebind_all (outputs t) (qualifying t) 0 r ∧
         ∀ k o, (length (qualifying t) ≤ k)%nat → outputs t !! k = Some o →
                o.(ptr_) ∉ ptr_ <$> take (length (qualifying t)) (outputs t) →
                shandle (world r') !! ptr_ o = shandle (world r) !! ptr_ o) ∧
  sync_patch (arrs t) (tags t) (output_tags t) (outputs t) r =
  naive_patch (arrs t) (tags t) (output_tags t) (outputs t) r.
Proof.
  assert (Hiff : is_Some (naive_patch (arrs t) (tags t) (output_tags t)
                            (outputs t) r) ↔
     (∀ i a, arrs t !! i = Some a → is_sparse a → is_Some (tags t !! i)) ∧
     (length (qualifying t) ≤ length (outputs t))%nat).
  { unfold naive_patch, qualifying. split.
    - intros Hsome.
      by apply (naive_patch_from_defined_2 _ _ _ _ (arrs t) 0 0 r eq_refl
                  ltac:(lia)) in Hsome.
    - intros [Htags Hlen].
      rewrite (naive_patch_from_defined_1 _ _ _ _ (arrs t) 0 0 r eq_refl);
        [done|done|simpl; lia]. }
  split; [exact Hiff|].
  split; [|symmetry; apply naive_sync_patch_from].
  intros r' Hr'. destruct (proj1 Hiff ltac:(by rewrite Hr')) as [Htags Hlen].
  unfold naive_patch, qualifying in *.
  rewrite (naive_patch_from_defined_1 _ _ _ _ (arrs t) 0 0 r eq_refl) in Hr';
    [|done|simpl; lia].
  rewrite drop_0 in Hr'. injection Hr' as <-. split; [done|].
  intros k o Hk Ho Hfresh.
  set (n := length (qualifying_from (tags t) (output_tags t) 0 (arrs t))) in *.
  assert (Hcut : ∀ outs srcs k0 r0, (length srcs ≤ length outs)%nat →
            rebind_all outs srcs k0 r0 =
            rebind_all (take (length srcs) outs) srcs k0 r0).
  { clear. intros outs srcs. revert outs.
    induction srcs as [|[i a] srcs IH]; intros outs k0 r0 Hlen.
    - simpl. by destruct outs.
    - destruct outs as [|o outs]; simpl in *; [lia|]. apply IH. lia. }
  rewrite Hcut by done. by apply rebind_all_frame.
Qed.

Lemma reconciliation_defined_iff_witness :
  ∃ r', naive_patch (arrs sample_task) (tags sample_task)
          (output_tags sample_task) (outputs sample_task ++ [dense_a])
          sample_runtime = Some r' ∧
        shandle (world r') !! ptr_ dense_a = Some 5.
Proof.
  set (t := {| func := func sample_task; ctx := ctx sample_task;
               recording := true; training := false;
               arrs := arrs sample_task; tags := tags sample_task;
               output_tags := output_tags sample_task;
               outputs := outputs sample_task ++ [dense_a] |}).
  destruct (reconciliation_defined_iff t sample_runtime) as (Hiff & Hres & _).
  destruct (proj2 Hiff) as [r' Hr'].
  { split; [|vm_compute; lia].
    intros [|[|i]] a Ha Hs; vm_compute in Ha; try discriminate Ha; by eexists. }
  exists r'. split; [exact Hr'|].
  destruct (Hres r' Hr') as [_ Hframe].
  rewrite (Hframe 1%nat dense_a); [reflexivity|vm_compute; lia|reflexivity|].
  vm_compute. intros Hin. apply list_elem_of_singleton in Hin. discriminate Hin.
Defined.


(** ** The variable lists at their bounds *)

Lemma build_vars_from_sublist tags0 output_tags0 rest idx vars vars2 v v2 :
  build_vars_from tags0 output_tags0 rest idx vars vars2 = Some (v, v2) →
  v = vars ++ (var <$> rest) ∧
  ∃ ext, v2 = vars2 ++ ext ∧ ext `sublist_of` (var <$> filter is_sparse rest).
Proof.
  revert idx vars vars2.
  induction rest as [|a rest IH]; intros idx vars vars2 Hb; simpl in Hb.
  { injection Hb as <- <-. rewrite app_nil_r. split; [done|].
    exists []. by rewrite app_nil_r. }
  destruct (tags0 !! idx) as [tag|]; [|done]. simpl in Hb.
  rewrite fmap_cons, filter_cons.
  replace (vars ++ var a :: (var <$> rest))
    with ((vars ++ [var a]) ++ (var <$> rest)) by (by rewrite <- app_assoc).
  destruct (bool_decide (tag ∈ output_tags0)).
  - destruct (is_dense_or_undefined (storage_type a)) eqn:Hdense.
    + destruct (IH _ _ _ Hb) as (-> & ext & -> & Hsub). split; [done|].
      exists ext. split; [done|].
      destruct (decide (is_sparse a)) as [Hs|_]; [|done].
      unfold is_sparse in Hs. congruence.
    + destruct (IH _ _ _ Hb) as (-> & ext & -> & Hsub). split; [done|].
      exists (var a :: ext). split; [by rewrite <- app_assoc|].
      destruct (decide (is_sparse a)) as [_|Hs]; [|by destruct Hs].
      rewrite fmap_cons. by apply sublist_skip.
  - destruct (IH _ _ _ Hb) as (-> & ext & -> & Hsub). split; [done|].
    exists ext. split; [done|].
    destruct (decide (is_sparse a)); [|done].
    rewrite fmap_cons. by apply sublist_cons.
Qed.

(** X5 (write variables).  Whenever the variable lists of the pooled path
    are defined, the read list holds the variable of every entry of [arrs],
    and the write list is a sub-sequence of the variables of the entries
    that are neither dense nor undefined, hence of the read list: a dense or
    undefined entry is never declared as written, and every variable declared
    as written is also declared as read. *)
Theorem write_vars_among_sparse (t : Task) (vars vars2 : list Z) :
  build_vars (arrs t) (tags t) (output_tags t) = Some (vars, vars2) →
  vars = var <$> arrs t ∧
  vars2 `sublist_of` (var <$> filter is_sparse (arrs t)) ∧
  vars2 `sublist_of` vars.
Proof.
  intros Hb. apply build_vars_from_sublist in Hb as (-> & ext & -> & Hsub).
  simpl. split; [done|]. split; [done|].
  etrans; [exact Hsub|]. apply fmap_sublist, sublist_filter.
Qed.

Lemma write_vars_among_sparse_witness :
  ∃ vars vars2,
    build_vars [sparse_b; dense_a] [1; 0] {[1]} = Some (vars, vars2) ∧
    vars2 `sublist_of` [var sparse_b].
Proof.
  set (t := {| func := func sample_task; ctx := ctx sample_task;
               recording := true; training := false;
               arrs := [sparse_b; dense_a]; tags := [1; 0];
               output_tags := {[1]}; outputs := [out_b] |}).
  destruct (build_vars (arrs t) (tags t) (output_tags t))
    as [[vars vars2]|] eqn:Hb; [|vm_compute in Hb; discriminate Hb].
  exists vars, vars2. split; [exact Hb|].
  exact (proj1 (proj2 (write_vars_among_sparse t vars vars2 Hb))).
Defined.

Lemma qualifying_from_dense tags0 output_tags0 i rest :
  Forall (λ a, ¬ is_sparse a) rest →
  qualifying_from tags0 output_tags0 i rest = [].
Proof.
  intros Hall. revert i. induction Hall as [|a rest Ha _ IH]; intros i; [done|].
  simpl. unfold qualifies.
  destruct (is_dense_or_undefined (storage_type a)) eqn:Hd; [apply IH|].
  by destruct Ha.
Qed.

(** X6 (dense entries without tags).  For a call whose entries are all dense
    or undefined and which passes no tags, the two paths differ.  The naive
    path never reads a tag: it runs [func], rebinds nothing and signals
    completion.  The queued task of the pooled path reads [tags[0]] while it
    builds its variable lists, before it looks at the storage kind, so with
    at least one entry its body has no defined behaviour; the closure it
    would have handed on is, like the naive loop, well defined. *)
Theorem dense_without_tags (t : Task) (r : Runtime) :
  arrs t ≠ [] → tags t = [] →
  Forall (λ a, ¬ is_sparse a) (arrs t) →
  Push_naive t r =
    Some (emit (EvComplete (ctx t)) (emit (EvFunc t) (on_world (func t) r))) ∧
  sync_closure t r = Some (emit (EvComplete (ctx t)) r) ∧
  task_body t r = None.
Proof.
  intros Hne Htags Hdense.
  assert (Hpatch : ∀ r0, naive_patch (arrs t) (tags t) (output_tags t)
                           (outputs t) r0 = Some r0).
  { intros r0. unfold naive_patch.
    rewrite (naive_patch_from_defined_1 _ _ _ _ (arrs t) 0 0 r0 eq_refl).
    - rewrite qualifying_from_dense by done. simpl. by destruct (outputs t).
    - intros j a Ha Hs. rewrite Forall_forall in Hdense.
      destruct (Hdense a); [|done]. apply list_elem_of_lookup. by exists j.
    - rewrite qualifying_from_dense by done. simpl. lia. }
  split; [|split].
  - unfold Push_naive. by rewrite Hpatch.
  - unfold sync_closure, sync_patch. rewrite <- naive_sync_patch_from.
    fold (naive_patch (arrs t) (tags t) (output_tags t) (outputs t) r).
    by rewrite Hpatch.
  - unfold task_body, build_vars. rewrite Htags.
    destruct (arrs t); [done|]. reflexivity.
Qed.

Lemma dense_without_tags_witness :
  task_body {| func := λ w, w; ctx := mkOpContext 0 1; recording := false;
               training := false; arrs := [dense_a]; tags := [];
               output_tags := ∅; outputs := [] |} sample_runtime = None.
Proof.
  apply dense_without_tags; [done|done|].
  constructor; [|constructor]. vm_compute. discriminate.
Defined.

(** ** The closure run by the downstream engine *)

(** X7 (completion on the pooled path).  When the downstream engine runs an
    operation the dispatcher handed to it, on a task that meets the
    precondition of [Push], the closure rebinds output [k] to the [k]-th
    qualifying entry and then signals completion, once and last; the
    operation leaves the engine's pending list, and the queue, the pool, the
    idle count, the lock and the registry are not touched. *)
Theorem engine_step_completes (env : Env) (s : State) (k : nat) (op : SyncOp) :
  engine (rt s) !! k = Some op →
  length (tags (exec_fun op)) = length (arrs (exec_fun op)) →
  length (outputs (exec_fun op)) = length (qualifying (exec_fun op)) →
  ∃ s',
    step env (EngineStep k) s = Some s' ∧
    log (rt s') =
      log (rt s) ++ rebind_events 0 (qualifying (exec_fun op)) ++
      [EvComplete (ctx (exec_fun op))] ∧
    world (rt s') =
      foldl (λ w p, SparseUpdateChunk p.1 p.2.2 w) (world (rt s))
            (zip (outputs (exec_fun op)) (qualifying (exec_fun op))) ∧
    engine (rt s') = delete k (engine (rt s)) ∧
    q_ s' = q_ s ∧ workers_ s' = workers_ s ∧
    num_free_threads s' = num_free_threads s ∧ mutex_ s' = mutex_ s ∧
    registry_ s' = registry_ s ∧ destructing_ s' = destructing_ s ∧
    dtor s' = dtor s.
Proof.
  intros Hop Htags Hout. set (t := exec_fun op) in *.
  set (r0 := {| world := world (rt s); engine := delete k (engine (rt s));
                log := log (rt s) |}).
  pose proof (naive_patch_from_rebind (arrs t) (tags t) (output_tags t)
                (outputs t) (arrs t) 0 0 r0 eq_refl) as Hp.
  fold (qualifying t) in Hp. rewrite drop_0 in Hp.
  specialize (Hp ltac:(lia) ltac:(lia)).
  exists (set_rt (emit (EvComplete (ctx t))
                    (rebind_all (outputs t) (qualifying t) 0 r0)) s).
  split.
  { simpl. unfold engine_step. rewrite Hop. simpl. fold t r0.
    unfold sync_closure, sync_patch. rewrite <- naive_sync_patch_from, Hp.
    reflexivity. }
  simpl. rewrite rebind_all_log by lia.
  rewrite rebind_all_world, rebind_all_engine. simpl.
  by rewrite <- app_assoc.
Qed.

Lemma engine_step_completes_witness :
  ∃ s', step default_env (EngineStep 0)
          (set_rt (PushSync (mkSyncOp sample_task 0 [] [] kNormal 0 "CustomOperator")
                     sample_runtime)
             (CustomOperator_new default_env sample_world)) = Some s' ∧
        engine (rt s') = [].
Proof.
  destruct (engine_step_completes default_env
    (set_rt (PushSync (mkSyncOp sample_task 0 [] [] kNormal 0 "CustomOperator")
               sample_runtime)
       (CustomOperator_new default_env sample_world))
    0%nat (mkSyncOp sample_task 0 [] [] kNormal 0 "CustomOperator")
    eq_refl eq_refl eq_refl) as (s' & Hstep & _ & _ & Heng & _).
  exists s'. split; [exact Hstep|]. rewrite Heng. reflexivity.
Defined.


(** ** What runs and what completes *)

Lemma completed_control l : completed (control l) = completed l.
Proof. apply omap_control. by intros []. Qed.

Lemma naive_patch_from_exec arrs0 tags0 output_tags0 outputs0 n i k r r' :
  naive_patch_from arrs0 tags0 output_tags0 outputs0 n i k r = Some r' →
  funcs_run (log r') = funcs_run (log r) ∧
  completions (log r') = completions (log r) ∧
  engine r' = engine r.
Proof.
  revert i k r. induction n as [|n IH]; intros i k r Hp; simpl in Hp.
  { by injection Hp as <-. }
  destruct (arrs0 !! i) as [a|]; [|done]. simpl in Hp.
  destruct (is_dense_or_undefined (storage_type a)); [by eapply IH|].
  destruct (tags0 !! i) as [tag|]; [|done]. simpl in Hp.
  destruct (bool_decide (tag ∈ output_tags0)); [|by eapply IH].
  destruct (outputs0 !! k) as [o|]; [|done]. simpl in Hp.
  apply IH in Hp as (-> & -> & ->). unfold funcs_run, completions.
  cbn [log emit on_world engine]. rewrite !omap_app. simpl.
  by rewrite !app_nil_r.
Qed.

(** The effect of a step on the tasks run, the completions signalled, the
    operations pending downstream and the task bodies finished. *)
Lemma step_exec env a s s' :
  pool_inv env s →
  step env a s = Some s' →
  ((∀ t, a = CallPush t → naive_engine_ s = false) ∧
   funcs_run (log (rt s')) = funcs_run (log (rt s)) ∧
   completions (log (rt s')) = completions (log (rt s)) ∧
   engine (rt s') = engine (rt s) ∧
   completed (log (rt s')) = completed (log (rt s)))
  ∨ (∃ t, a = CallPush t ∧ naive_engine_ s = true ∧
          funcs_run (log (rt s')) = funcs_run (log (rt s)) ++ [t] ∧
          completions (log (rt s')) = completions (log (rt s)) ++ [ctx t] ∧
          engine (rt s') = engine (rt s) ∧
          completed (log (rt s')) = completed (log (rt s)))
  ∨ (∃ i t op, a = WorkerStep i ∧ workers_ s !! i = Some (Running t) ∧
          exec_fun op = t ∧
          funcs_run (log (rt s')) = funcs_run (log (rt s)) ++ [t] ∧
          completions (log (rt s')) = completions (log (rt s)) ∧
          engine (rt s') = engine (rt s) ++ [op] ∧
          completed (log (rt s')) = completed (log (rt s)) ++ [t])
  ∨ (∃ k op, a = EngineStep k ∧ engine (rt s) !! k = Some op ∧
          funcs_run (log (rt s')) = funcs_run (log (rt s)) ∧
          completions (log (rt s')) =
            completions (log (rt s)) ++ [ctx (exec_fun op)] ∧
          engine (rt s') = delete k (engine (rt s)) ∧
          completed (log (rt s')) = completed (log (rt s))).
Proof.
  intros Hinv Hstep.
  assert (Hctl : ∀ e r, exec_event e = false →
            (∀ i t, e ≠ EvDone i t) →
            funcs_run (log (emit e r)) = funcs_run (log r) ∧
            completions (log (emit e r)) = completions (log r) ∧
            engine (emit e r) = engine r ∧
            completed (log (emit e r)) = completed (log r)).
  { intros e r He Hd. unfold funcs_run, completions, completed. cbn [log emit engine].
    rewrite !omap_app. destruct e; try done; simpl; rewrite ?app_nil_r; try done.
    by destruct (Hd i t). }
  assert (Hctl2 : ∀ e1 e2 r, exec_event e1 = false → exec_event e2 = false →
            (∀ i t, e1 ≠ EvDone i t) → (∀ i t, e2 ≠ EvDone i t) →
            funcs_run (log (emit e2 (emit e1 r))) = funcs_run (log r) ∧
            completions (log (emit e2 (emit e1 r))) = completions (log r) ∧
            engine (emit e2 (emit e1 r)) = engine r ∧
            completed (log (emit e2 (emit e1 r))) = completed (log r)).
  { intros e1 e2 r H1 H2 Hd1 Hd2.
    destruct (Hctl e2 (emit e1 r) H2 Hd2) as (-> & -> & -> & ->).
    by apply Hctl. }
  destruct a as [n c|n|t| |i|k|]; simpl in Hstep.
  - left. split; [done|]. destruct (mutex_ s); [done|]. injection Hstep as <-.
    unfold Register. destruct (registry_ s !! n); [|done].
    by apply (Hctl (EvWarning n)).
  - left. split; [done|]. destruct (mutex_ s); [done|]. by injection Hstep as <-.
  - unfold Push in Hstep. destruct (naive_engine_ s) eqn:Hnv.
    { right. left. exists t. split; [done|]. split; [done|].
      destruct (Push_naive t (rt s)) as [r|] eqn:Hr; [|done].
      injection Hstep as <-. apply Push_naive_control in Hr as Hc.
      unfold Push_naive, naive_patch in Hr.
      destruct (naive_patch_from _ _ _ _ _ _ _ _) as [r1|] eqn:Hr1; [|done].
      injection Hr as <-. apply naive_patch_from_exec in Hr1 as (HF & HC & HE).
      cbn [rt set_rt]. split; [|split; [|split]].
      - unfold funcs_run in *. cbn [log emit] in *. rewrite omap_app, HF.
        cbn [log emit on_world]. rewrite omap_app. simpl. by rewrite app_nil_r.
      - unfold completions in *. cbn [log emit] in *. rewrite omap_app, HC.
        cbn [log emit on_world]. rewrite omap_app. simpl. by rewrite app_nil_r.
      - cbn [engine emit]. by rewrite HE.
      - by rewrite <- completed_control, Hc, completed_control. }
    left. split; [by intros ? _|]. destruct (mutex_ s); [done|]. simpl in Hstep.
    destruct (_ >? _); injection Hstep as <-.
    + by apply (Hctl (EvEnqueue t)).
    + by apply (Hctl2 (EvEnqueue t) EvNotifyAll).
  - left. split; [done|]. apply Push_grow_spawned in Hstep as [_ ->]; [|done].
    cbn [rt set_mutex notify_all record set_rt].
    match goal with |- context [spawned_state ?k s] => generalize k end.
    intros k.
    destruct (Hctl EvNotifyAll (rt (spawned_state k s)) eq_refl ltac:(done))
      as (-> & -> & -> & ->).
    unfold funcs_run, completions, completed. cbn [rt spawned_state log engine].
    rewrite !omap_app, !omap_spawn by done. by rewrite !app_nil_r.
  - unfold worker_step in Hstep.
    destruct (workers_ s !! i) as [pc|] eqn:Hpc; [|done]. simpl in Hstep.
    assert (Hcs : ∀ s0, critical_section i s = s0 →
                 funcs_run (log (rt s0)) = funcs_run (log (rt s)) ∧
                 completions (log (rt s0)) = completions (log (rt s)) ∧
                 engine (rt s0) = engine (rt s) ∧
                 completed (log (rt s0)) = completed (log (rt s))).
    { intros s0 <-. unfold critical_section.
      destruct (q_ s) as [|fn q']; [destruct (destructing_ s)|];
        cbn [rt set_pc set_workers record set_rt set_q set_num_free_threads];
        [by apply (Hctl (EvExit i))|done|by apply (Hctl (EvDequeue i fn))]. }
    destruct pc; try (left; split; [done|]; destruct (mutex_ s); [done|];
      rewrite locked_critical_section in Hstep; injection Hstep as Hstep;
      by apply Hcs).
    + right. right. left.
      destruct (task_body fn (rt s)) as [r|] eqn:Hr; [|done].
      injection Hstep as <-. unfold task_body in Hr.
      destruct (build_vars _ _ _) as [[vars vars2]|]; [|done].
      injection Hr as <-.
      exists i, fn, (mkSyncOp fn (run_ctx (ctx fn)) vars vars2 kNormal 0
                              CustomOperator_name).
      split; [done|]. split; [done|]. split; [done|].
      cbn [rt set_pc set_workers record set_rt].
      unfold funcs_run, completions, completed.
      cbn [log emit PushSync on_world engine].
      rewrite !omap_app. simpl. by rewrite !app_nil_r.
    + left. split; [done|]. by injection Hstep as <-.
    + done.
  - right. right. right. unfold engine_step in Hstep.
    destruct (engine (rt s) !! k) as [op|] eqn:Hop; [|done]. simpl in Hstep.
    destruct (sync_closure _ _) as [r|] eqn:Hr; [|done]. injection Hstep as <-.
    exists k, op. split; [done|]. split; [done|].
    apply sync_closure_control in Hr as Hc.
    unfold sync_closure, sync_patch in Hr. rewrite <- naive_sync_patch_from in Hr.
    destruct (naive_patch_from _ _ _ _ _ _ _ _) as [r1|] eqn:Hr1; [|done].
    injection Hr as <-. apply naive_patch_from_exec in Hr1 as (HF & HC & HE).
    cbn [rt set_rt]. split; [|split; [|split]].
    + unfold funcs_run in *. cbn [log emit] in *. rewrite omap_app, HF.
      simpl. by rewrite app_nil_r.
    + unfold completions in *. cbn [log emit] in *. by rewrite omap_app, HC.
    + cbn [engine emit]. by rewrite HE.
    + by rewrite <- completed_control, Hc, completed_control.
  - left. split; [done|]. unfold destructor_step in Hstep.
    destruct (dtor s) as [|j|].
    + destruct (naive_engine_ s); [by injection Hstep as <-|].
      destruct (mutex_ s); [done|]. injection Hstep as <-.
      by apply (Hctl EvNotifyAll).
    + destruct (workers_ s !! j) as [[]|]; try done; injection Hstep as <-;
        [|done]. by apply (Hctl (EvJoin j)).
    + done.
Qed.

Lemma step_naive_fixed env a s s' :
  pool_inv env s → step env a s = Some s' → naive_engine_ s' = naive_engine_ s.
Proof.
  intros Hinv Hstep.
  apply (trans_naive_fixed (max_threads env) false (view s) (view s')).
  by eapply step_trans.
Qed.

Lemma step_exec_inv env a s s' :
  pool_inv env s → exec_inv s → step env a s = Some s' → exec_inv s'.
Proof.
  intros Hinv [HP HF] Hstep. pose proof (step_naive_fixed _ _ _ _ Hinv Hstep) as Hnv.
  unfold exec_inv. rewrite Hnv.
  destruct (step_exec _ _ _ _ Hinv Hstep)
    as [(_ & -> & -> & -> & ->)
       |[(t & _ & Hn & -> & -> & -> & ->)
        |[(i & t & op & _ & _ & Hop & -> & -> & -> & ->)
         |(k & op & _ & Hop & -> & -> & -> & ->)]]].
  - done.
  - split; [|intros; congruence].
    rewrite fmap_app, HP. simpl. rewrite <- !app_assoc.
    apply Permutation_app_head, Permutation_app_comm.
  - split; [|intros Hp; by rewrite HF].
    unfold pending_completions. rewrite !fmap_app, HP. simpl.
    rewrite Hop. by rewrite app_assoc.
  - split; [|done]. rewrite HP. unfold pending_completions.
    rewrite (delete_Permutation _ _ _ Hop) at 1. rewrite fmap_cons.
    rewrite <- !app_assoc. apply Permutation_app_head. done.
Qed.

Lemma reachable_exec_inv env s : reachable env s → exec_inv s.
Proof.
  apply reachable_invariant.
  - intros w0. by split.
  - intros a s0 s1 Hr. apply step_exec_inv. by apply reachable_pool_inv.
Qed.

(** X8 (each run gets one completion).  In every reachable state, in either
    mode, the completion contexts of the tasks whose [func] has run are,
    counted with multiplicity, those already signalled together with those
    of the operations still pending in the downstream engine.  So a
    completion is never signalled for a [func] that has not run, never
    twice for one run, and none is dropped. *)
Theorem completions_account_for_runs (env : Env) (s : State) :
  reachable env s →
  ctx <$> funcs_run (log (rt s)) ≡ₚ
    completions (log (rt s)) ++ pending_completions (engine (rt s)) ∧
  (length (completions (log (rt s))) ≤ length (funcs_run (log (rt s))))%nat.
Proof.
  intros Hs. destruct (reachable_exec_inv env s Hs) as [HP _].
  split; [done|]. apply Permutation_length in HP.
  rewrite length_fmap, length_app in HP. lia.
Qed.


Lemma pipeline_state_reachable : reachable default_env pipeline_state.
Proof. exists sample_world, (pooled_pipeline sample_task). vm_compute. reflexivity. Qed.

Lemma completions_account_for_runs_witness :
  completions (log (rt pipeline_state)) = [ctx sample_task] ∧
  (length (completions (log (rt pipeline_state))) ≤
   length (funcs_run (log (rt pipeline_state))))%nat.
Proof.
  split; [vm_compute; reflexivity|].
  apply (completions_account_for_runs default_env pipeline_state
           pipeline_state_reachable).
Defined.

(** ** No task is lost or run twice *)

Lemma running_tasks_insert (ws : list WorkerPc) (i : nat) pc pc' :
  ws !! i = Some pc →
  running_task (Some pc) ++ running_tasks (<[i := pc']> ws) ≡ₚ
  running_task (Some pc') ++ running_tasks ws.
Proof.
  unfold running_tasks. revert i.
  induction ws as [|p ws IH]; intros i Hi; [done|].
  destruct i as [|i]; simpl in Hi |- *.
  - injection Hi as ->.
    rewrite !app_assoc. apply Permutation_app_tail, Permutation_app_comm.
  - rewrite !app_assoc.
    rewrite (Permutation_app_comm (running_task (Some pc))).
    rewrite (Permutation_app_comm (running_task (Some pc'))).
    rewrite <- !app_assoc. apply Permutation_app_head. by apply IH.
Qed.

Lemma running_tasks_app ws ws' :
  running_tasks (ws ++ ws') = running_tasks ws ++ running_tasks ws'.
Proof. unfold running_tasks. apply flat_map_app. Qed.

Lemma running_tasks_replicate k : running_tasks (replicate k AtEntry) = [].
Proof. induction k as [|k IH]; [done|]. exact IH. Qed.

Lemma trans_conservation_inv cap ord v v' :
  conservation_inv v → trans cap ord v v' → conservation_inv v'.
Proof.
  unfold conservation_inv. intros Hinv Htrans.
  destruct Htrans; unfold enqueued, completed in *;
    cbn [v_mutex v_workers v_free v_q v_naive v_destructing v_dtor v_log] in *;
    rewrite ?omap_app, ?omap_spawn by done; cbn [omap list_omap];
    rewrite ?app_nil_r in *; try done.
  - rewrite Hinv. by rewrite !app_assoc.
  - rewrite Hinv. by rewrite !app_assoc.
  - by rewrite running_tasks_app, running_tasks_replicate, app_nil_r.
  - (* dequeue *)
    pose proof (running_tasks_insert ws i pc (Running fn) H) as Hr.
    assert (Hidle : running_task (Some pc) = []) by (by destruct pc).
    rewrite Hidle in Hr. simpl in Hr.
    rewrite Hr, Hinv. apply Permutation_app_head. simpl.
    symmetry. apply Permutation_middle.
  - pose proof (running_tasks_insert ws i pc AtWait H) as Hr.
    assert (Hidle : running_task (Some pc) = []) by (by destruct pc).
    rewrite Hidle in Hr. simpl in Hr.
    by rewrite Hr.
  - pose proof (running_tasks_insert ws i pc Exited H) as Hr.
    assert (Hidle : running_task (Some pc) = []) by (by destruct pc).
    rewrite Hidle in Hr. simpl in Hr.
    by rewrite Hr.
  - (* done *)
    pose proof (running_tasks_insert ws i (Running fn) Finished H) as Hr.
    simpl in Hr. rewrite Hinv, <- Hr. rewrite <- !app_assoc.
    apply Permutation_app_head. done.
  - pose proof (running_tasks_insert ws i Finished AtRelock H) as Hr.
    simpl in Hr. by rewrite Hr.
Qed.

Lemma reachable_conservation_inv env s : reachable env s → conservation_inv (view s).
Proof.
  apply reachable_view_invariant.
  - intros w0. unfold conservation_inv. simpl. reflexivity.
  - intros v v' _. apply trans_conservation_inv.
Qed.



Lemma running_tasks_exited ws :
  (∀ i pc, ws !! i = Some pc → pc = Exited) → running_tasks ws = [].
Proof.
  induction ws as [|p ws IH]; intros Hall; [done|].
  rewrite (Hall 0%nat p eq_refl). simpl. apply IH.
  intros i pc Hi. by apply (Hall (S i)).
Qed.

(** X10 (shutdown runs every task once).  In pooled mode with a cap of at
    least one, when no task is submitted after the destructor was entered:
    once the destructor is done, the queue is empty, no worker is inside a
    task, and the tasks whose [func] has run are, counted with multiplicity,
    exactly the tasks that were submitted. *)
Theorem shutdown_runs_every_task_once (env : Env) (s : State) :
  orderly env s → naive_engine_ s = false → dtor s = Destroyed →
  1 ≤ max_threads env →
  q_ s = [] ∧ running_tasks (workers_ s) = [] ∧
  funcs_run (log (rt s)) ≡ₚ enqueued (log (rt s)).
Proof.
  intros Hs Hnv Hdt Hcap.
  pose proof (orderly_shutdown_inv env s Hs) as (S1 & S2 & S3 & S4).
  apply orderly_reachable in Hs as Hr.
  pose proof (reachable_first_worker_inv env s Hr) as Hfirst.
  pose proof (reachable_conservation_inv env s Hr) as Hcons.
  destruct (reachable_exec_inv env s Hr) as [_ HF].
  unfold first_worker_inv, conservation_inv in *. simpl in *.
  rewrite enqueued_control, completed_control in Hcons.
  rewrite Hdt in S2, S4. rewrite Hnv in S4. destruct S4 as [_ Hall].
  assert (Hq : q_ s = []).
  { destruct (workers_ s) as [|pc ws] eqn:Hws.
    - destruct (Hfirst Hcap eq_refl) as [?|[Hm _]]; [done|].
      destruct (S2 ltac:(done) Hnv) as [Hm' _]. congruence.
    - rewrite (Hall eq_refl 0%nat pc eq_refl) in S3.
      by destruct (S3 0%nat eq_refl). }
  assert (Hrun : running_tasks (workers_ s) = []).
  { apply running_tasks_exited. by apply Hall. }
  split; [done|]. split; [done|].
  by rewrite Hcons, Hrun, Hq, (HF Hnv), !app_nil_r.
Qed.

Lemma shutdown_runs_every_task_once_witness :
  funcs_run (log (rt shutdown_state)) ≡ₚ [task_1; task_2].
Proof.
  destruct (shutdown_runs_every_task_once default_env shutdown_state
              shutdown_state_orderly eq_refl eq_refl) as (_ & _ & Hperm).
  { vm_compute. discriminate. }
  rewrite Hperm. vm_compute. reflexivity.
Defined.


(** ** Naive mode over whole runs *)

Lemma run_naive env acts s0 s :
  reachable env s0 → naive_engine_ s0 = true → engine (rt s0) = [] →
  run env acts s0 = Some s →
  funcs_run (log (rt s)) = funcs_run (log (rt s0)) ++ pushes acts ∧
  completions (log (rt s)) = completions (log (rt s0)) ++ (ctx <$> pushes acts) ∧
  engine (rt s) = [] ∧ naive_engine_ s = true.
Proof.
  revert s0. induction acts as [|a acts IH]; intros s0 Hr Hnv Heng Hrun;
    simpl in Hrun.
  { injection Hrun as <-. simpl. by rewrite !app_nil_r. }
  destruct (step env a s0) as [s1|] eqn:Hstep; [|done]. simpl in Hrun.
  pose proof (reachable_pool_inv env s0 Hr) as Hinv.
  pose proof (step_naive_fixed _ _ _ _ Hinv Hstep) as Hnv1. rewrite Hnv in Hnv1.
  pose proof (reachable_step _ _ _ _ Hr Hstep) as Hr1.
  destruct (reachable_naive_inv env s0 Hr Hnv) as (Hws & _). simpl in Hws.
  destruct (step_exec _ _ _ _ Hinv Hstep)
    as [(Hnp & HF & HC & HE & _)
       |[(t & -> & _ & HF & HC & HE & _)
        |[(i & t & op & _ & Hi & _)
         |(k & op & _ & Hop & _)]]].
  - destruct (IH s1 Hr1 Hnv1 ltac:(congruence) Hrun) as (-> & -> & -> & ->).
    rewrite HF, HC.
    assert (Ha : pushes (a :: acts) = pushes acts).
    { destruct a; try done. specialize (Hnp _ eq_refl). congruence. }
    by rewrite Ha.
  - destruct (IH s1 Hr1 Hnv1 ltac:(congruence) Hrun) as (-> & -> & -> & ->).
    rewrite HF, HC. simpl. by rewrite <- !app_assoc.
  - by rewrite Hws in Hi.
  - by rewrite Heng in Hop.
Qed.

(** X11 (naive mode, whole runs).  When the engine-type setting is
    "NaiveEngine", after any run of the object the tasks whose [func] has run
    are the tasks of the [Push] calls of the run, in call order, the
    completions signalled are theirs, in the same order, and nothing was
    handed to the downstream engine: every call has run and completed by the
    time it returned. *)
Theorem naive_runs_complete_in_call_order (env : Env) (w0 : World)
    (acts : list Action) (s : State) :
  MXNET_ENGINE_TYPE env = Some "NaiveEngine" →
  run env acts (CustomOperator_new env w0) = Some s →
  funcs_run (log (rt s)) = pushes acts ∧
  completions (log (rt s)) = ctx <$> pushes acts ∧
  engine (rt s) = [].
Proof.
  intros Henv Hrun.
  destruct (run_naive env acts _ s (reachable_new env w0)) as (HF & HC & HE & _);
    [by simpl; rewrite Henv|done|done|].
  by rewrite HF, HC, HE.
Qed.

Lemma naive_runs_complete_in_call_order_witness :
  ∃ s, run naive_env [CallPush task_1; CallRegister "A" 1; CallPush task_2; Destruct]
         (CustomOperator_new naive_env sample_world) = Some s ∧
       completions (log (rt s)) = [ctx task_1; ctx task_2].
Proof.
  destruct (run naive_env
              [CallPush task_1; CallRegister "A" 1; CallPush task_2; Destruct]
              (CustomOperator_new naive_env sample_world)) as [s|] eqn:Hrun;
    [|vm_compute in Hrun; discriminate Hrun].
  exists s. split; [reflexivity|].
  exact (proj1 (proj2 (naive_runs_complete_in_call_order naive_env sample_world
                         _ s eq_refl Hrun))).
Defined.

(** ** While [Push] holds the lock *)

Lemma step_mutex_held env a s s' :
  mutex_ s = true → a ≠ PushGrow → step env a s = Some s' → mutex_ s' = true.
Proof.
  intros Hm Ha Hstep. destruct a as [n c|n|t| |i|k|]; simpl in Hstep;
    rewrite ?Hm in Hstep; try done.
  - unfold Push in Hstep. rewrite Hm in Hstep.
    destruct (naive_engine_ s); [|done].
    destruct (Push_naive t (rt s)); [|done]. by injection Hstep as <-.
  - unfold worker_step in Hstep.
    destruct (workers_ s !! i) as [pc|]; [|done]. simpl in Hstep.
    rewrite Hm in Hstep. destruct pc; try done.
    + destruct (task_body fn (rt s)); [|done]. by injection Hstep as <-.
    + by injection Hstep as <-.
  - unfold engine_step in Hstep.
    destruct (engine (rt s) !! k); [|done]. simpl in Hstep.
    destruct (sync_closure _ _); [|done]. by injection Hstep as <-.
  - unfold destructor_step in Hstep. rewrite Hm in Hstep.
    destruct (dtor s) as [|j|].
    + destruct (naive_engine_ s); [by injection Hstep as <-|done].
    + destruct (workers_ s !! j) as [[]|]; try done; by injection Hstep as <-.
    + done.
Qed.

Lemma trans_lock_held cap ord v v' :
  trans cap ord v v' → v_mutex v = true → v_mutex v' = true →
  v_q v' = v_q v ∧ length (v_workers v') = length (v_workers v) ∧
  v_free v ≤ v_free v' ∧
  dequeued (v_log v') = dequeued (v_log v).
Proof.
  intros Htrans. destruct Htrans; simpl; intros Hm Hm'; try done;
    rewrite ?length_insert; unfold dequeued; rewrite ?omap_app; simpl;
    rewrite ?app_nil_r; (split; [done|]; split; [done|]; split; [lia|done]).
Qed.

(** X12 (the lock of a growing [Push]).  While a [Push] holds the lock
    between its comparison and its growth step, whatever else runs leaves the
    lock held, the queue as it is and the pool at its size, dequeues nothing,
    and can only raise the idle count: [Register], [Find], another pooled
    [Push], the destructor's entry and every worker that needs the lock are
    blocked, and workers finishing a task only add to the count.  So the
    deficit the growth step computes is never larger than the one the
    comparison saw. *)
Theorem lock_held_by_push_frames_queue (env : Env) (a : Action) (s s' : State) :
  reachable env s → mutex_ s = true → a ≠ PushGrow →
  step env a s = Some s' →
  mutex_ s' = true ∧ q_ s' = q_ s ∧
  length (workers_ s') = length (workers_ s) ∧
  num_free_threads s ≤ num_free_threads s' ∧
  dequeued (log (rt s')) = dequeued (log (rt s)) ∧
  (∀ n c, a ≠ CallRegister n c) ∧ (∀ n, a ≠ CallFind n).
Proof.
  intros Hs Hm Ha Hstep.
  pose proof (step_mutex_held _ _ _ _ Hm Ha Hstep) as Hm'.
  pose proof (step_trans env false a s s' (reachable_pool_inv env s Hs) Hstep
                ltac:(done)) as Htrans.
  destruct (trans_lock_held _ _ _ _ Htrans Hm Hm') as (Hq & Hw & Hn & Hd).
  simpl in *. rewrite !dequeued_control in Hd.
  split; [done|]. split; [done|]. split; [done|]. split; [done|].
  split; [done|]. split.
  - intros n c ->. simpl in Hstep. by rewrite Hm in Hstep.
  - intros n ->. simpl in Hstep. by rewrite Hm in Hstep.
Qed.

Lemma held_state_reachable : reachable default_env held_state.
Proof.
  exists sample_world, [CallPush task_1; PushGrow; WorkerStep 0; CallPush task_2].
  vm_compute. reflexivity.
Qed.

Lemma lock_held_by_push_frames_queue_witness :
  ∃ s', step default_env (WorkerStep 0) held_state = Some s' ∧
        mutex_ s' = true ∧ q_ s' = [task_2].
Proof.
  destruct (step default_env (WorkerStep 0) held_state) as [s'|] eqn:Hstep;
    [|vm_compute in Hstep; discriminate Hstep].
  exists s'. split; [reflexivity|].
  destruct (lock_held_by_push_frames_queue default_env (WorkerStep 0)
              held_state s' held_state_reachable eq_refl ltac:(discriminate) Hstep)
    as (Hm' & Hq' & _).
  split; [exact Hm'|]. rewrite Hq'. vm_compute. reflexivity.
Defined.


(** ** After the workers have returned *)

Lemma idle_count_exited ws :
  (∀ i pc, ws !! i = Some pc → pc = Exited) →
  idle_count ws = Z.of_nat (length ws).
Proof.
  induction ws as [|p ws IH]; intros Hall; [done|].
  rewrite (Hall 0%nat p eq_refl). simpl. rewrite IH; [lia|].
  intros i pc Hi. by apply (Hall (S i)).
Qed.

Lemma worker_step_exited i s :
  (∀ j pc, workers_ s !! j = Some pc → pc = Exited) → worker_step i s = None.
Proof.
  intros Hall. unfold worker_step.
  destruct (workers_ s !! i) as [pc|] eqn:Hpc; [|done].
  by rewrite (Hall i pc Hpc).
Qed.

(** The steps other than [Push] that can still be taken once every worker
    has returned and the lock is free leave the queue, the pool and the lock
    as they are. *)
Lemma step_after_return env a s s' :
  (∀ j pc, workers_ s !! j = Some pc → pc = Exited) → mutex_ s = false →
  is_push a = false → step env a s = Some s' →
  workers_ s' = workers_ s ∧ q_ s' = q_ s ∧ mutex_ s' = false.
Proof.
  intros Hall Hm Ha Hstep. destruct a as [n c|n|t| |i|k|]; simpl in Hstep;
    rewrite ?Hm in Hstep; try done.
  - injection Hstep as <-. destruct (Register_fields n c s) as (-> & -> & _ & -> & _).
    done.
  - by injection Hstep as <-.
  - unfold Push_grow in Hstep. by rewrite Hm in Hstep.
  - by rewrite worker_step_exited in Hstep.
  - unfold engine_step in Hstep.
    destruct (engine (rt s) !! k); [|done]. simpl in Hstep.
    destruct (sync_closure _ _); [|done]. by injection Hstep as <-.
  - unfold destructor_step in Hstep. rewrite Hm in Hstep.
    destruct (dtor s) as [|j|].
    + destruct (naive_engine_ s); by injection Hstep as <-.
    + destruct (workers_ s !! j) as [[]|]; try done; by injection Hstep as <-.
    + done.
Qed.

Lemma returned_state_reachable : reachable default_env returned_state.
Proof.
  exists sample_world,
    [CallPush task_1; PushGrow; CallPush task_2; PushGrow; Destruct;
     WorkerStep 0; WorkerStep 0; WorkerStep 0;
     WorkerStep 0; WorkerStep 0; WorkerStep 0;
     WorkerStep 0; WorkerStep 1].
  vm_compute. reflexivity.
Qed.

(** X13 (a task submitted after the workers returned).  A worker that has
    returned still counts as idle: it left with the count raised and never
    lowers it again.  So in pooled mode, once every worker has returned, a
    [Push] that finds fewer queued tasks than workers sees no deficit: it
    queues the task, starts no worker and releases the lock.  No worker step
    is possible afterwards, and as long as no further [Push] is made the task
    stays in the queue whatever else happens: it is never run and its
    completion is never signalled by this object. *)
Theorem push_after_workers_returned (env : Env) (s : State) (t : Task) :
  reachable env s → naive_engine_ s = false → mutex_ s = false →
  (∀ i pc, workers_ s !! i = Some pc → pc = Exited) →
  (length (q_ s) < length (workers_ s))%nat →
  ∃ s',
    step env (CallPush t) s = Some s' ∧
    q_ s' = q_ s ++ [t] ∧ workers_ s' = workers_ s ∧ mutex_ s' = false ∧
    (∀ i, step env (WorkerStep i) s' = None) ∧
    (∀ acts s'', forallb (λ a, negb (is_push a)) acts = true →
                 run env acts s' = Some s'' →
                 q_ s'' = q_ s ++ [t] ∧ workers_ s'' = workers_ s).
Proof.
  intros Hs Hnv Hm Hall Hlen.
  destruct (reachable_pool_inv env s Hs) as [Hfree _].
  rewrite (idle_count_exited _ Hall) in Hfree.
  set (s' := notify_all (record (EvEnqueue t) (set_q (q_ s ++ [t]) s))).
  assert (Hstep : step env (CallPush t) s = Some s').
  { simpl. unfold Push. rewrite Hnv, Hm. simpl.
    destruct (_ >? _) eqn:Hgt; [|done].
    apply Z.gtb_lt in Hgt. rewrite length_app in Hgt. simpl in Hgt. lia. }
  exists s'. split; [done|]. split; [done|]. split; [done|]. split; [done|].
  split; [intros i; by apply worker_step_exited|].
  assert (Hgen : ∀ acts s1 s2,
            (∀ j pc, workers_ s1 !! j = Some pc → pc = Exited) →
            mutex_ s1 = false →
            forallb (λ a, negb (is_push a)) acts = true →
            run env acts s1 = Some s2 →
            q_ s2 = q_ s1 ∧ workers_ s2 = workers_ s1).
  { clear. intros acts. induction acts as [|a acts IH];
      intros s1 s2 Hall Hm Hacts Hrun; simpl in Hrun.
    - by injection Hrun as <-.
    - destruct (step env a s1) as [s3|] eqn:Hstep; [|done]. simpl in Hrun.
      simpl in Hacts. apply andb_true_iff in Hacts as [Ha Hacts].
      apply negb_true_iff in Ha.
      destruct (step_after_return _ _ _ _ Hall Hm Ha Hstep) as (Hw & Hq & Hm3).
      destruct (IH s3 s2) as [-> ->]; [by rewrite Hw|done|done|done|].
      by rewrite Hw, Hq. }
  intros acts s'' Hacts Hrun. by apply (Hgen acts s' s'').
Qed.

Lemma push_after_workers_returned_witness :
  dtor returned_state = Joining 0 ∧
  ∃ s', step default_env (CallPush task_1) returned_state = Some s' ∧
        q_ s' = [task_1] ∧ ∀ i, step default_env (WorkerStep i) s' = None.
Proof.
  split; [reflexivity|].
  destruct (push_after_workers_returned default_env returned_state task_1)
    as (s' & Hstep & Hq & _ & _ & Hnone & _).
  - apply returned_state_reachable.
  - reflexivity.
  - reflexivity.
  - intros [|[|i]] pc Hpc; vm_compute in Hpc; [by injection Hpc as <-..|done].
  - vm_compute. lia.
  - exists s'. split; [exact Hstep|]. split; [exact Hq|exact Hnone].
Defined.

(** ** Progress of the shutdown *)





(** ** A burst of submissions *)

Lemma burst_snoc ts t : burst (ts ++ [t]) = burst ts ++ [CallPush t; PushGrow].
Proof. unfold burst. by rewrite flat_map_app. Qed.

(** X15 (pool growth under a burst).  In pooled mode, when [n] tasks are
    submitted to a fresh object and no worker gets to move in between, every
    [Push] finds one task more queued than workers idle and grows the pool
    by one until the cap is reached: afterwards the pool has [min n cap]
    workers (none for a cap below zero), all idle and about to enter their
    loop, the [n] tasks are queued in submission order and the lock is
    free. *)
Theorem burst_grows_pool_to_cap (env : Env) (w0 : World) (ts : list Task) :
  MXNET_ENGINE_TYPE env ≠ Some "NaiveEngine" →
  2 * Z.of_nat (length ts) < 2 ^ 31 →
  ∃ s,
    run env (burst ts) (CustomOperator_new env w0) = Some s ∧
    workers_ s =
      replicate (Z.to_nat (Z.min (Z.of_nat (length ts)) (Z.max 0 (max_threads env))))
                AtEntry ∧
    num_free_threads s =
      Z.min (Z.of_nat (length ts)) (Z.max 0 (max_threads env)) ∧
    q_ s = ts ∧ mutex_ s = false ∧ naive_engine_ s = false.
Proof.
  intros Henv. induction ts as [|t ts IH] using rev_ind; intros Hlen.
  { eexists. split; [reflexivity|]. simpl.
    replace (Z.to_nat (Z.of_nat 0 `min` (0 `max` max_threads env)))
      with 0%nat by lia.
    split; [done|]. split; [lia|]. split; [done|]. split; [done|].
    destruct (MXNET_ENGINE_TYPE env) as [str|]; simpl;
      repeat case_bool_decide; congruence. }
  rewrite length_app in Hlen. simpl in Hlen.
  destruct IH as (s & Hrun & Hws & Hfree & Hq & Hm & Hnv); [lia|].
  set (m := Z.min (Z.of_nat (length ts)) (Z.max 0 (max_threads env))) in *.
  set (s1 := set_mutex true (record (EvEnqueue t) (set_q (q_ s ++ [t]) s))).
  assert (Hpush : step env (CallPush t) s = Some s1).
  { simpl. unfold Push. rewrite Hnv, Hm. simpl.
    destruct (_ >? _) eqn:Hgt; [done|].
    rewrite Z.gtb_ltb in Hgt. apply Z.ltb_ge in Hgt.
    rewrite Hq, Hfree, length_app in Hgt. simpl in Hgt. lia. }
  assert (Hr1 : reachable env s1).
  { eapply reachable_step; [|exact Hpush]. by exists w0, (burst ts). }
  destruct (Push_grow env s1) as [s2|] eqn:Hgrow; [|done].
  pose proof Hgrow as Hs2.
  apply Push_grow_spawned in Hs2 as [_ Hs2]; [|by apply reachable_pool_inv].
  simpl in Hs2. rewrite Hws, Hfree, Hq, length_replicate, length_app in Hs2.
  simpl in Hs2.
  assert (Hm0 : 0 ≤ m ≤ Z.of_nat (length ts)) by lia.
  rewrite (to_int_small (_ - _)) in Hs2 by lia.
  rewrite to_int_small in Hs2 by lia.
  exists s2. split.
  { rewrite burst_snoc, run_app, Hrun.
    change (step env (CallPush t) s ≫=
              (λ s', step env PushGrow s' ≫= λ s'', Some s'') = Some s2).
    rewrite Hpush. cbn [mbind option_bind].
    change (step env PushGrow s1) with (Push_grow env s1). by rewrite Hgrow. }
  rewrite Hs2. simpl. rewrite Hws, Hfree, Hq, <- replicate_add, length_app.
  simpl. split; [f_equal; lia|]. split; [lia|]. done.
Qed.

Lemma burst_grows_pool_to_cap_witness :
  ∃ s, run default_env (burst [task_1; task_2; task_1])
         (CustomOperator_new default_env sample_world) = Some s ∧
       workers_ s = [AtEntry; AtEntry; AtEntry].
Proof.
  destruct (burst_grows_pool_to_cap default_env sample_world
              [task_1; task_2; task_1]) as (s & Hrun & Hws & _).
  - discriminate.
  - vm_compute. reflexivity.
  - exists s. split; [exact Hrun|]. rewrite Hws. vm_compute. reflexivity.
Defined.


(** ** The two paths side by side *)

Lemma flag_window_transparent (t : Task) (w : World) :
  is_recording w = recording t → is_training w = training t →
  is_recording (func t w) = recording t → is_training (func t w) = training t →
  flag_window t w = func t w.
Proof.
  intros Hr Ht Hr' Ht'. unfold flag_window, flag_window_enter, flag_window_leave.
  simpl. rewrite <- Hr, <- Ht.
  assert (Hw : {| is_recording := is_recording w; is_training := is_training w;
                  shandle := shandle w |} = w) by (by destruct w).
  rewrite Hw. rewrite Hr, Ht, <- Hr', <- Ht'. by destruct (func t w).
Qed.

(** X16 (the pooled path computes what the naive path computes).  Take a
    task that meets the precondition of [Push], submitted while the ambient
    flags already have the values passed to [Push], and whose [func] leaves
    the flags at those values.  On a fresh pooled object with a cap of at
    least one, the task going through the queue, the first worker and the
    downstream engine leaves the same storage and flags as one naive [Push]
    on a fresh naive object; in both cases [func] has run once and the
    completion has been signalled once, and the pooled object ends with an
    empty queue and nothing pending downstream. *)
Theorem pooled_path_agrees_with_naive (env_n env_p : Env) (w0 : World) (t : Task) :
  MXNET_ENGINE_TYPE env_n = Some "NaiveEngine" →
  MXNET_ENGINE_TYPE env_p ≠ Some "NaiveEngine" →
  1 ≤ max_threads env_p →
  length (tags t) = length (arrs t) →
  length (outputs t) = length (qualifying t) →
  is_recording w0 = recording t → is_training w0 = training t →
  is_recording (func t w0) = recording t →
  is_training (func t w0) = training t →
  ∃ sn sp,
    step env_n (CallPush t) (CustomOperator_new env_n w0) = Some sn ∧
    run env_p (pooled_pipeline t) (CustomOperator_new env_p w0) = Some sp ∧
    world (rt sp) = world (rt sn) ∧
    funcs_run (log (rt sn)) = [t] ∧ funcs_run (log (rt sp)) = [t] ∧
    completions (log (rt sn)) = [ctx t] ∧ completions (log (rt sp)) = [ctx t] ∧
    engine (rt sp) = [] ∧ q_ sp = [].
Proof.
  intros Hn Hp Hcap Htags Hout Hrec Htr Hrec' Htr'.
  assert (Hpatch : ∀ r, naive_patch (arrs t) (tags t) (output_tags t)
                          (outputs t) r =
                        Some (rebind_all (outputs t) (qualifying t) 0 r)).
  { intros r. unfold naive_patch.
    rewrite (naive_patch_from_rebind _ _ _ _ (arrs t) 0 0 r eq_refl);
      [by rewrite drop_0|lia|]. fold (qualifying t). simpl. lia. }
  assert (Hsync : ∀ r, sync_patch (arrs t) (tags t) (output_tags t)
                         (outputs t) r =
                       Some (rebind_all (outputs t) (qualifying t) 0 r)).
  { intros r. rewrite <- Hpatch. unfold sync_patch, naive_patch. symmetry.
    apply naive_sync_patch_from. }
  (* the naive side *)
  set (rn := emit (EvComplete (ctx t))
               (rebind_all (outputs t) (qualifying t) 0
                  (emit (EvFunc t)
                     (on_world (func t) (mkRuntime w0 [] []))))).
  set (s0n := CustomOperator_new env_n w0).
  assert (Hsn : step env_n (CallPush t) s0n = Some (set_rt rn s0n)).
  { simpl. unfold Push. simpl. rewrite Hn. simpl.
    unfold Push_naive. by rewrite Hpatch. }
  (* the pooled side, step by step *)
  set (s0 := CustomOperator_new env_p w0).
  assert (Hnv : naive_engine_ s0 = false).
  { simpl. destruct (MXNET_ENGINE_TYPE env_p) as [str|]; simpl;
      repeat case_bool_decide; congruence. }
  set (s1 := set_mutex true (record (EvEnqueue t) (set_q [t] s0))).
  assert (H1 : step env_p (CallPush t) s0 = Some s1).
  { change (Push t s0 = Some s1). unfold Push. rewrite Hnv. reflexivity. }
  assert (Hr1 : reachable env_p s1).
  { eapply reachable_step; [apply reachable_new|exact H1]. }
  set (s2 := set_mutex false (notify_all (spawned_state 1 s1))).
  assert (H2 : step env_p PushGrow s1 = Some s2).
  { destruct (Push_grow env_p s1) as [s2'|] eqn:Hg; [|done].
    pose proof Hg as Hg'.
    apply Push_grow_spawned in Hg' as [_ ->]; [|by apply reachable_pool_inv].
    change (Push_grow env_p s1 = Some s2). rewrite Hg. unfold s2. do 4 f_equal.
    change (Z.to_nat (Z.min (max_threads env_p) (to_int (0 + to_int (1 - 0))) - 0)
            = 1%nat).
    change (to_int (0 + to_int (1 - 0))) with 1. lia. }
  set (s3 := critical_section 0 s2).
  assert (H3 : step env_p (WorkerStep 0) s2 = Some s3).
  { change (worker_step 0 s2 = Some s3). unfold worker_step.
    change (workers_ s2 !! 0%nat) with (Some AtEntry). cbn [mbind option_bind].
    change (mutex_ s2) with false. cbv iota. apply locked_critical_section. }
  set (op := mkSyncOp t (run_ctx (ctx t)) (var <$> arrs t)
               (write_vars (tags t) (output_tags t) (arrs t) []) kNormal 0
               CustomOperator_name).
  set (r4 := PushSync op (emit (EvFunc t) (on_world (flag_window t) (rt s3)))).
  set (s4 := record (EvDone 0 t) (set_pc 0 Finished (set_rt r4 s3))).
  assert (H4 : step env_p (WorkerStep 0) s3 = Some s4).
  { change (worker_step 0 s3 = Some s4). unfold worker_step.
    change (workers_ s3 !! 0%nat) with (Some (Running t)).
    cbn [mbind option_bind]. unfold task_body.
    by rewrite build_vars_spec. }
  set (r5 := emit (EvComplete (ctx t))
               (rebind_all (outputs t) (qualifying t) 0
                  (mkRuntime (world (rt s4)) (delete 0%nat (engine (rt s4)))
                             (log (rt s4))))).
  assert (H5 : step env_p (EngineStep 0) s4 = Some (set_rt r5 s4)).
  { change (engine_step 0 s4 = Some (set_rt r5 s4)). unfold engine_step.
    change (engine (rt s4) !! 0%nat) with (Some op). cbn [mbind option_bind].
    change (exec_fun op) with t. unfold sync_closure. by rewrite Hsync. }
  exists (set_rt rn s0n), (set_rt r5 s4). split; [exact Hsn|]. split.
  { unfold pooled_pipeline.
    change (step env_p (CallPush t) s0 ≫= (λ a,
            step env_p PushGrow a ≫= (λ b,
            step env_p (WorkerStep 0) b ≫= (λ c,
            step env_p (WorkerStep 0) c ≫= (λ d,
            step env_p (EngineStep 0) d ≫= (λ e, Some e))))) =
            Some (set_rt r5 s4)).
    rewrite H1. cbn [mbind option_bind]. rewrite H2. cbn [mbind option_bind].
    rewrite H3. cbn [mbind option_bind]. rewrite H4. cbn [mbind option_bind].
    by rewrite H5. }
  cbn [rt set_rt]. unfold rn, r5.
  split.
  { cbn [world emit]. rewrite !rebind_all_world. cbn [world emit on_world].
    change (world (rt s4)) with (flag_window t w0).
    by rewrite flag_window_transparent. }
  unfold funcs_run, completions. cbn [log emit engine].
  rewrite !omap_app, !rebind_all_log by lia.
  rewrite !omap_app, !omap_rebind_events by done.
  rewrite rebind_all_engine.
  split; [reflexivity|]. split; [reflexivity|]. split; [reflexivity|].
  split; [reflexivity|]. split; reflexivity.
Qed.

Lemma pooled_path_agrees_with_naive_witness :
  ∃ sn sp,
    step naive_env (CallPush task_1)
      (CustomOperator_new naive_env (mkWorld false false ∅)) = Some sn ∧
    run default_env (pooled_pipeline task_1)
      (CustomOperator_new default_env (mkWorld false false ∅)) = Some sp ∧
    world (rt sp) = world (rt sn).
Proof.
  destruct (pooled_path_agrees_with_naive naive_env default_env
              (mkWorld false false ∅) task_1)
    as (sn & sp & Hsn & Hsp & Hw & _);
    [reflexivity|discriminate|vm_compute; discriminate|reflexivity..|].
  exists sn, sp. split; [exact Hsn|]. split; [exact Hsp|exact Hw].
Defined.
